(** * remote.go: the client side of a kite connection

    A shallow embedding of [remote.go] (package [kite]) and the properties
    its specification states about it: the call dispatcher ([send],
    [sendCallbackID], [makeResponseCallback]), the unroutable-method
    handler ([onError]), the disconnect signal set up by [NewRemoteKite],
    and the credential renewal loop ([tokenRenewer],
    [renewTokenUntilDisconnect], [renewToken]).

    Sequential code is embedded as functions.  Goroutines, channels and the
    [select] statements are embedded as small transition systems whose
    program points are the lines of the source; every transition is an
    executable function of the state and of the action that is scheduled. *)

From Stdlib Require Import ZArith NArith Lia List String Ascii.
From Stdlib Require Import Decimal DecimalString DecimalN DecimalPos.
From stdpp Require Import base option list gmap strings fin_maps.

Local Open Scope string_scope.
Local Open Scope list_scope.

(** ** Go values *)

Module Go.

(** [time.Duration] is an [int64] count of nanoseconds. *)
Definition Duration := Z.
Definition Nanosecond : Duration := 1%Z.
Definition Second : Duration := 1000000000%Z.
Definition minDuration : Duration := (- 2 ^ 63)%Z.
Definition maxDuration : Duration := (2 ^ 63 - 1)%Z.

(** [time.Time], as nanoseconds since the Unix epoch ([t.UTC()] only changes
    the location a time is printed in, never the instant). *)
Definition Time := Z.

(** [t.Add(d)]. *)
Definition Time_Add (t : Time) (d : Duration) : Time := (t + d)%Z.

(** [t.Sub(u)]: the difference, saturated to the range of a [Duration]. *)
Definition Time_Sub (t u : Time) : Duration :=
  let d := (t - u)%Z in
  if (d <? minDuration)%Z then minDuration
  else if (maxDuration <? d)%Z then maxDuration
  else d.

(** [time.Unix(sec, 0)]. *)
Definition Unix (sec : Z) : Time := (sec * Second)%Z.

(** [uint64]. *)
Definition maxUint64 : N := 18446744073709551615%N.
Definition wrap64 (n : N) : N := (n mod 2 ^ 64)%N.

(** A byte of a decimal numeral, as [strconv.ParseUint] reads it in base 10:
    ['0'..'9'] give a digit, everything else is a syntax error. *)
Definition digit_of (c : ascii) : option N :=
  let b := N_of_ascii c in
  if ((48 <=? b) && (b <=? 57))%N then Some (b - 48)%N else None.

(** The smallest number such that [cutoff * 10 > maxUint64]. *)
Definition cutoff : N := (maxUint64 / 10 + 1)%N.

(** The loop of [strconv.ParseUint(s, 10, 64)], returning the value only
    (the caller in [sendCallbackID] drops the error): a syntax error returns
    0, a range error returns [maxUint64]. *)
Fixpoint ParseUint_loop (s : string) (n : N) : N :=
  match s with
  | EmptyString => n
  | String c rest =>
      match digit_of c with
      | None => 0%N
      | Some d =>
          if (cutoff <=? n)%N then maxUint64
          else
            let n' := wrap64 (n * 10) in
            let n1 := wrap64 (n' + d) in
            if ((n1 <? n') || (maxUint64 <? n1))%N then maxUint64
            else ParseUint_loop rest n1
      end
  end.

Definition ParseUint (s : string) : N :=
  match s with
  | EmptyString => 0%N
  | _ => ParseUint_loop s 0
  end.

(** [strconv.FormatUint(n, 10)]: the decimal numeral of [n], without leading
    zeros. *)
Definition FormatUint (n : N) : string := NilZero.string_of_uint (N.to_uint n).

(** The number a numeral denotes when it follows digits that denote [acc]. *)
Fixpoint uint_acc (d : uint) (acc : N) : N :=
  match d with
  | Nil => acc
  | D0 d => uint_acc d (acc * 10 + 0)
  | D1 d => uint_acc d (acc * 10 + 1)
  | D2 d => uint_acc d (acc * 10 + 2)
  | D3 d => uint_acc d (acc * 10 + 3)
  | D4 d => uint_acc d (acc * 10 + 4)
  | D5 d => uint_acc d (acc * 10 + 5)
  | D6 d => uint_acc d (acc * 10 + 6)
  | D7 d => uint_acc d (acc * 10 + 7)
  | D8 d => uint_acc d (acc * 10 + 8)
  | D9 d => uint_acc d (acc * 10 + 9)
  end%N.

(** *** Channels

    A channel of capacity [cap]: the values buffered in it, oldest first, and
    whether it has been closed.  An operation that would block returns
    [None]. *)
Record chan (A : Type) : Type := mkChan {
  buf : list A;
  cap : nat;
  closed : bool
}.
Arguments mkChan {A}.
Arguments buf {A}.
Arguments cap {A}.
Arguments closed {A}.

(** [make(chan A, n)]. *)
Definition make {A} (n : nat) : chan A := mkChan [] n false.

(** [ch <- v] on a buffered channel that is not closed: it proceeds when the
    buffer has room. *)
Definition chan_send {A} (ch : chan A) (v : A) : option (chan A) :=
  if closed ch then None
  else if (length (buf ch) <? cap ch)%nat
       then Some (mkChan (buf ch ++ [v]) (cap ch) false)
       else None.

(** [v, ok := <-ch]: a buffered value with [ok = true]; on a closed and
    drained channel the zero value with [ok = false] (here [None]); it
    blocks on an open and empty channel. *)
Definition chan_recv {A} (ch : chan A) : option (option A * chan A) :=
  match buf ch with
  | v :: rest => Some (Some v, mkChan rest (cap ch) (closed ch))
  | [] => if closed ch then Some (None, ch) else None
  end.

(** [close(ch)]. *)
Definition chan_close {A} (ch : chan A) : chan A :=
  mkChan (buf ch) (cap ch) true.

End Go.

Import Go.

(** ** The collaborators of [remote.go]

    [koding/kite/dnode] is not part of the file: a [dnode.Partial] is an
    argument that is still encoded, and [Unmarshal] decodes it into the
    value it is given.  The decoders the file calls are the operations of
    this class; nothing is assumed about what they return. *)

(** [kite.Error], built in the file as [&Error{Type: ..., Message: ...}]. *)
Record Error : Type := mkError {
  Type_ : string;
  Message : string
}.

Class Dnode : Type := {
  (** [dnode.Partial]. *)
  Partial : Type;
  (** [dnode.Function]: a continuation of the peer that can be invoked. *)
  Function : Type;
  (** [p.Unmarshal(&a)] for [a []*dnode.Partial]: the slice after the call
      and the error, if any. *)
  Unmarshal_slice : Partial -> list Partial * option string;
  (** [p.Unmarshal(&resp)] for the anonymous struct of
      [makeResponseCallback], whose fields are [nil] before the call: the
      fields after the call and the error, if any. *)
  Unmarshal_resp : Partial -> (option Partial * option Error) * option string;
  (** [p.Unmarshal(&keys)] for [keys map[string]interface{}]: the keys of
      the map after the call (its error is dropped by the caller). *)
  Unmarshal_keys : Partial -> gset string;
  (** [p.Unmarshal(&options)] for [options callOptions]: the
      [ResponseCallback] field after the call ([None] is [nil]) and the
      error, if any. *)
  Unmarshal_options : Partial -> option Function * option string
}.

(** ** The data of a [RemoteKite] *)

Module Kite.

(** [protocol.Kite]: the fields the file reads. *)
Record protocol_Kite : Type := {
  Name : string;
  ID : string;
  URL : string
}.

(** [Authentication]; [validUntil] is a [*time.Time]. *)
Record Authentication : Type := mkAuthentication {
  AuthType : string;
  Key : string;
  validUntil : option Time
}.

(** The channels made for [r.disconnect] are told apart by their identity;
    the heap records which of them have been closed and the next identity
    [make] hands out. *)
Record Heap : Type := mkHeap {
  closed_chans : gset N;
  next_chan : N
}.

Definition make_chan (h : Heap) : N * Heap :=
  (next_chan h, mkHeap (closed_chans h) (next_chan h + 1)%N).

Definition close_chan (c : N) (h : Heap) : Heap :=
  mkHeap ({[ c ]} ∪ closed_chans h) (next_chan h).

Definition is_closed (c : N) (h : Heap) : bool :=
  bool_decide (c ∈ closed_chans h).

(** [RemoteKite]: the fields that carry state ([Log], [client] and
    [localKite] are handles to collaborators). *)
Record RemoteKite : Type := mkRemoteKite {
  Kite : protocol_Kite;
  Auth : Authentication;
  disconnect : N;
  tellTimeout : Duration
}.

(** Line 21. *)
Definition DefaultTellTimeout : Duration := (4 * Second)%Z.

(** Line 142. *)
Definition SetTellTimeout (d : Duration) (r : RemoteKite) : RemoteKite :=
  mkRemoteKite (Kite r) (Auth r) (disconnect r) d.

(** Lines 51-95, on the state: the struct literal with a fresh
    [disconnect] channel, then [SetTellTimeout(DefaultTellTimeout)].  The
    two handlers it registers are [onConnect] and [onDisconnect] below. *)
Definition NewRemoteKite (kite : protocol_Kite) (auth : Authentication)
    (h : Heap) : RemoteKite * Heap :=
  let '(d, h') := make_chan h in
  (SetTellTimeout DefaultTellTimeout (mkRemoteKite kite auth d 0%Z), h').

(** The handler of lines 77-84: whether it starts [tokenRenewer]. *)
Definition onConnect (r : RemoteKite) : bool :=
  match validUntil (Auth r) with
  | None => false
  | Some _ => true
  end.

(** The handler of lines 87-92: [close(r.disconnect)], then
    [r.disconnect = make(chan bool)]. *)
Definition onDisconnect (rh : RemoteKite * Heap) : RemoteKite * Heap :=
  let '(r, h) := rh in
  let h1 := close_chan (disconnect r) h in
  let '(d, h2) := make_chan h1 in
  (mkRemoteKite (Kite r) (Auth r) d (tellTimeout r), h2).

(** The two statements of that handler, which run under the mutex [m] of
    line 86: line 89, [close(r.disconnect)], and line 90,
    [r.disconnect = make(chan bool)]. *)
Definition handler_close (rh : RemoteKite * Heap) : RemoteKite * Heap :=
  (rh.1, close_chan (disconnect rh.1) rh.2).

Definition handler_replace (rh : RemoteKite * Heap) : RemoteKite * Heap :=
  let '(d, h) := make_chan rh.2 in
  (mkRemoteKite (Kite rh.1) (Auth rh.1) d (tellTimeout rh.1), h).

(** The connection, as its handlers and the tasks that read [r.disconnect]
    see it.  [handling] says that a run of the disconnect handler holds the
    mutex and stands between its two statements; the tasks that read
    [r.disconnect] (lines 179, 203 and 372) do not take the mutex, so they
    can read it then. *)
Record conn : Type := mkConn {
  conn_kite : RemoteKite;
  conn_heap : Heap;
  handling : bool
}.

Inductive conn_event : Type :=
| Connected        (* the connection is made: the handler of lines 77-84 *)
| HandlerClose     (* a disconnect: lines 88-89 *)
| HandlerReplace.  (* lines 90-91 *)

(** [None] when the event cannot happen: a second run of the handler waits
    at [m.Lock()], and line 90 follows line 89. *)
Definition conn_step (e : conn_event) (c : conn) : option conn :=
  match e with
  | Connected => Some c
  | HandlerClose =>
      if handling c then None
      else
        let rh := handler_close (conn_kite c, conn_heap c) in
        Some (mkConn rh.1 rh.2 true)
  | HandlerReplace =>
      if handling c
      then
        let rh := handler_replace (conn_kite c, conn_heap c) in
        Some (mkConn rh.1 rh.2 false)
      else None
  end.

Fixpoint conn_run (es : list conn_event) (c : conn) : option conn :=
  match es with
  | [] => Some c
  | e :: rest => c' ← conn_step e c; conn_run rest c'
  end.

(** The signal is replaced when the connection is made again. *)
Definition replaced_on_reconnect (c : conn) : Prop :=
  exists c', conn_step Connected c = Some c'
             /\ disconnect (conn_kite c') <> disconnect (conn_kite c).

(** A connection in which every channel in use was made by [make_chan],
    and the channel in place is closed exactly while a run of the handler
    stands between its two statements. *)
Definition conn_ok (c : conn) : Prop :=
  (disconnect (conn_kite c) < next_chan (conn_heap c))%N
  /\ (forall d, d ∈ closed_chans (conn_heap c) -> (d < next_chan (conn_heap c))%N)
  /\ (handling c = true <-> disconnect (conn_kite c) ∈ closed_chans (conn_heap c)).

(** A heap in which every channel in use was made by [make_chan]. *)
Definition heap_ok (rh : RemoteKite * Heap) : Prop :=
  (disconnect rh.1 < next_chan rh.2)%N
  /\ (forall c, c ∈ closed_chans rh.2 -> (c < next_chan rh.2)%N)
  /\ disconnect rh.1 ∉ closed_chans rh.2.

End Kite.

Import Kite.

(** ** The call dispatcher: [send], [sendCallbackID], [makeResponseCallback] *)

Module Dispatch.

Section WithDnode.
Context `{Dnode}.

(** [response], lines 297-300. *)
Record response : Type := mkResponse {
  Result : option Partial;
  Err : option Error
}.

(** The three responses [send] builds itself (lines 355-358, 373, 375). *)
Definition sendError_response (err : string) : response :=
  mkResponse None (Some (mkError "sendError" err)).
Definition disconnect_response : response :=
  mkResponse None (Some (mkError "disconnect" "Remote kite has disconnected")).
Definition timeout_response : response :=
  mkResponse None
    (Some (mkError "timeout" "Did not get the response in allowed time")).

(** [dnode.Path]; [r.client.Call] returns a [map[string]dnode.Path] from
    the identifier of each continuation it registered to where it stands in
    the arguments. *)
Definition Path : Type := list string.

(** *** [sendCallbackID], lines 389-405 *)

(** The body of the [range] loop (lines 395-398). *)
Definition max_step (max : N) (id : string) : N :=
  let i := ParseUint id in
  if (max <? i)%N then i else max.

(** Lines 393-399, for the keys in the order the [range] visits them. *)
Definition find_max (ids : list string) : N := fold_left max_step ids 0%N.

(** The keys of the map, in one order. *)
Definition keys_of (callbacks : gmap string Path) : list string :=
  (map_to_list callbacks).*1.

Definition sendCallbackID (callbacks : gmap string Path) (ch : chan N)
    : option (chan N) :=
  if (0 <? size callbacks)%nat
  then chan_send ch (find_max (keys_of callbacks))
  else Some (chan_close ch).

(** Modelled from the spec: [r.client.Call] belongs to the transport, which
    is not in the file.  "The send call returns the continuation identifiers
    minted by this invocation"; "continuation identifiers are assigned
    monotonically within one call and nested/earlier continuations always
    receive smaller identifiers"; the envelope lists [withArgs] before
    [responseCallback].  [seq] is the next identifier of the client, a
    [uint64]; an identifier is the key [FormatUint] prints for it. *)
Fixpoint mint (seq : N) (paths : list Path) (m : gmap string Path)
    : gmap string Path :=
  match paths with
  | [] => m
  | p :: rest => mint (wrap64 (seq + 1)) rest (<[FormatUint seq := p]> m)
  end.

(** The map [Call] returns for an envelope whose application arguments hold
    the continuations at [nested], and whose response continuation is at
    [top]; and the identifier the response continuation is given. *)
Definition Call_callbacks (seq : N) (nested : list Path) (top : Path)
    : gmap string Path :=
  mint seq (nested ++ [top]) ∅.

Definition top_id (seq : N) (nested : list Path) : N :=
  wrap64 (seq + N.of_nat (length nested)).

(** Modelled from the spec: what [r.client.Call] does to the callback map,
    given whether the transport rejects the call.  "sendError - the
    transport rejected the call synchronously (e.g., not connected);
    returned immediately, no timeout/registry involvement": a rejected call
    returns its error and leaves the map as it was; an accepted call
    returns the identifiers it minted, which it has added to the map. *)
Definition Call (rejected : option string) (seq : N) (nested : list Path)
    (top : Path) (reg : gset N) : (gmap string Path + string) * gset N :=
  match rejected with
  | Some err => (inr err, reg)
  | None =>
      let callbacks := Call_callbacks seq nested top in
      (inl callbacks, reg ∪ list_to_set (ParseUint <$> keys_of callbacks))
  end.

(** *** [makeResponseCallback], lines 410-461 *)

(** Modelled from the spec: [SliceOfLength] of [dnode.Arguments] is not in
    the file; the reply is "a single argument delivered to the response
    continuation", and the call site asks for a slice of that length: the
    arguments decoded as a slice, and an error when the decoding fails or
    the length differs. *)
Definition SliceOfLength (p : Partial) (n : nat) : list Partial * option string :=
  let '(a, err) := Unmarshal_slice p in
  match err with
  | Some e => (a, Some e)
  | None =>
      if (length a =? n)%nat then (a, None)
      else (a, Some "Invalid array length")
  end.

(** The deferred function, lines 419-426: what goes to [doneChan] for the
    [resp] that the body leaves. *)
Definition deferred_response (resp : option Partial * option Error) : response :=
  match resp.2 with
  | Some e => mkResponse resp.1 (Some e)
  | None => mkResponse resp.1 None
  end.

(** Lines 435-459: the [resp] the body leaves, for [request.Args].  In the
    branch where the slice is empty without an error, [arg[0]] panics with
    [resp] untouched (the deferred function still runs). *)
Definition response_body (args : Partial) : option Partial * option Error :=
  match SliceOfLength args 1 with
  | (_, Some err) => (None, Some (mkError "invalidResponse" err))
  | (arg, None) =>
      match arg with
      | [] => (None, None)
      | arg0 :: _ =>
          let '(resp, uerr) := Unmarshal_resp arg0 in
          match uerr with
          | Some err => (resp.1, Some (mkError "invalidResponse" err))
          | None =>
              let keys := Unmarshal_keys arg0 in
              let ok1 := bool_decide ("result" ∈ keys) in
              let ok2 := bool_decide ("error" ∈ keys) in
              if negb ok1 && negb ok2
              then (resp.1,
                    Some (mkError "invalidResponse"
                            "Server has sent invalid response arguments"))
              else resp
          end
      end
  end.

(** What one invocation of the callback sends to [doneChan]. *)
Definition responseCallback (args : Partial) : response :=
  deferred_response (response_body args).

(** *** [send], lines 338-386, with the goroutine it starts and the
    invocations of the callback *)

(** Where [send] stands. *)
Inductive sender_pc : Type :=
| S_call                                   (* line 353, before [Call] returns *)
| S_failed (err : string)                  (* line 355 *)
| S_called (callbacks : gmap string Path)  (* line 363 *)
| S_spawned (callbacks : gmap string Path) (* line 385 *)
| S_returned (res : gmap string Path + string).

(** Where the goroutine of lines 368-383 stands. *)
Inductive waiter_pc : Type :=
| W_absent
| W_start (timeout : Duration)       (* started, [select] not yet entered *)
| W_select (d : N)                   (* in [select]; [d] is [r.disconnect] as
                                        read on entering it *)
| W_reply (resp : response) (cleanup : bool)  (* lines 371, 373, 375 *)
| W_cleanup                          (* line 379 *)
| W_done.

(** Where one invocation of the callback stands. *)
Inductive callback_pc : Type :=
| C_entry (args : Partial)     (* line 430 *)
| C_decode (args : Partial)    (* lines 435-459, then the deferred send *)
| C_done.

(** The timer of [time.After(timeout)], line 374. *)
Inductive timer_state : Type :=
| Unarmed
| Armed (d : Duration) (fired : bool).

Record state : Type := mkState {
  (* the connection *)
  r : RemoteKite;
  heap : Heap;
  registry : gset N;             (* the identifiers in the client's callback map *)
  (* the arguments and the channels of this call *)
  timeout : Duration;
  responseChan : chan response;
  doneChan : chan response;
  removeCallback : chan N;
  (* the threads *)
  sender : sender_pc;
  waiter : waiter_pc;
  invocations : list callback_pc;
  timer : timer_state;
  (* history *)
  observed : list response;      (* received by the caller from [responseChan] *)
  removed : list N;              (* [RemoveCallback] calls made for this call *)
  replies : list Partial         (* the arguments of the replies so far *)
}.

(** Field updates. *)
Definition set_r (x : RemoteKite) (s : state) : state :=
  mkState x (heap s) (registry s) (timeout s) (responseChan s) (doneChan s) (removeCallback s) (sender s) (waiter s) (invocations s) (timer s) (observed s) (removed s) (replies s).
Definition set_heap (x : Heap) (s : state) : state :=
  mkState (r s) x (registry s) (timeout s) (responseChan s) (doneChan s) (removeCallback s) (sender s) (waiter s) (invocations s) (timer s) (observed s) (removed s) (replies s).
Definition set_registry (x : gset N) (s : state) : state :=
  mkState (r s) (heap s) x (timeout s) (responseChan s) (doneChan s) (removeCallback s) (sender s) (waiter s) (invocations s) (timer s) (observed s) (removed s) (replies s).
Definition set_responseChan (x : chan response) (s : state) : state :=
  mkState (r s) (heap s) (registry s) (timeout s) x (doneChan s) (removeCallback s) (sender s) (waiter s) (invocations s) (timer s) (observed s) (removed s) (replies s).
Definition set_doneChan (x : chan response) (s : state) : state :=
  mkState (r s) (heap s) (registry s) (timeout s) (responseChan s) x (removeCallback s) (sender s) (waiter s) (invocations s) (timer s) (observed s) (removed s) (replies s).
Definition set_removeCallback (x : chan N) (s : state) : state :=
  mkState (r s) (heap s) (registry s) (timeout s) (responseChan s) (doneChan s) x (sender s) (waiter s) (invocations s) (timer s) (observed s) (removed s) (replies s).
Definition set_sender (x : sender_pc) (s : state) : state :=
  mkState (r s) (heap s) (registry s) (timeout s) (responseChan s) (doneChan s) (removeCallback s) x (waiter s) (invocations s) (timer s) (observed s) (removed s) (replies s).
Definition set_waiter (x : waiter_pc) (s : state) : state :=
  mkState (r s) (heap s) (registry s) (timeout s) (responseChan s) (doneChan s) (removeCallback s) (sender s) x (invocations s) (timer s) (observed s) (removed s) (replies s).
Definition set_invocations (x : list callback_pc) (s : state) : state :=
  mkState (r s) (heap s) (registry s) (timeout s) (responseChan s) (doneChan s) (removeCallback s) (sender s) (waiter s) x (timer s) (observed s) (removed s) (replies s).
Definition set_timer (x : timer_state) (s : state) : state :=
  mkState (r s) (heap s) (registry s) (timeout s) (responseChan s) (doneChan s) (removeCallback s) (sender s) (waiter s) (invocations s) x (observed s) (removed s) (replies s).
Definition set_observed (x : list response) (s : state) : state :=
  mkState (r s) (heap s) (registry s) (timeout s) (responseChan s) (doneChan s) (removeCallback s) (sender s) (waiter s) (invocations s) (timer s) x (removed s) (replies s).
Definition set_removed (x : list N) (s : state) : state :=
  mkState (r s) (heap s) (registry s) (timeout s) (responseChan s) (doneChan s) (removeCallback s) (sender s) (waiter s) (invocations s) (timer s) (observed s) x (replies s).
Definition set_replies (x : list Partial) (s : state) : state :=
  mkState (r s) (heap s) (registry s) (timeout s) (responseChan s) (doneChan s) (removeCallback s) (sender s) (waiter s) (invocations s) (timer s) (observed s) (removed s) x.

(** [GoWithTimeout] (lines 326-335) makes [responseChan]; [send] makes
    [removeCallback] and [doneChan] and builds the callback (lines 342-348):
    the state in which [send] is about to call [r.client.Call]. *)
Definition init (r0 : RemoteKite) (h : Heap) (reg : gset N) (t : Duration)
    : state :=
  mkState r0 h reg t (make 1) (make 1) (make 1)
    S_call W_absent [] Unarmed [] [] [].

(** What can happen next.  The transport, the peer, the clock and the
    connection choose [ACall], [AReply], [ATimerFire] and [ADisconnect];
    the scheduler chooses among the others. *)
Inductive action : Type :=
| ACall (res : gmap string Path + string) (reg' : gset N)
    (* [r.client.Call] returns [res], leaving the callback map as [reg'] *)
| ASender                  (* [send] runs its next statement *)
| AWaiterEnter             (* the goroutine enters its [select] *)
| AWaiterDone              (* the [select] takes [<-doneChan] *)
| AWaiterDisconnect        (* the [select] takes [<-r.disconnect] *)
| AWaiterTimeout           (* the [select] takes [<-time.After(timeout)] *)
| AWaiterSend              (* the goroutine sends to [responseChan] *)
| AWaiterCleanup           (* lines 379-381 *)
| AReply (args : Partial)  (* the peer invokes the callback: the client
                              runs it in a goroutine of its own *)
| ACallbackRecv (i : nat)  (* invocation [i] runs lines 430-432 *)
| ACallbackFinish (i : nat) (* invocation [i] runs lines 435-459 and the
                               deferred send *)
| ATimerFire               (* the duration of the timer has elapsed *)
| ADisconnect              (* the handler of lines 87-92 runs *)
| AReceive.                (* the caller receives from [responseChan] *)

(** [if id, ok := <-removeCallback; ok { r.client.RemoveCallback(id) }]
    (lines 379-381 and 430-432); [None] when the receive blocks. *)
Definition receive_and_remove (s : state) : option state :=
  '(v, ch) ← chan_recv (removeCallback s);
  match v with
  | Some id =>
      Some (set_removeCallback ch
              (set_registry (registry s ∖ {[ id ]})
                 (set_removed (removed s ++ [id]) s)))
  | None => Some (set_removeCallback ch s)
  end.

(** Lines 363-365: the timeout the goroutine is started with. *)
Definition effective_timeout (r0 : RemoteKite) (t : Duration) : Duration :=
  if (t =? 0)%Z then tellTimeout r0 else t.

Definition step (a : action) (s : state) : option state :=
  match a with
  | ACall res reg' =>
      match sender s with
      | S_call =>
          let pc := match res with
                    | inl callbacks => S_called callbacks
                    | inr err => S_failed err
                    end in
          Some (set_sender pc (set_registry reg' s))
      | _ => None
      end
  | ASender =>
      match sender s with
      | S_failed err =>
          (* lines 355-359 *)
          ch ← chan_send (responseChan s) (sendError_response err);
          Some (set_sender (S_returned (inr err)) (set_responseChan ch s))
      | S_called callbacks =>
          (* lines 363-368 *)
          Some (set_sender (S_spawned callbacks)
                  (set_waiter (W_start (effective_timeout (r s) (timeout s))) s))
      | S_spawned callbacks =>
          (* line 385 *)
          ch ← sendCallbackID callbacks (removeCallback s);
          Some (set_sender (S_returned (inl callbacks))
                  (set_removeCallback ch s))
      | _ => None
      end
  | AWaiterEnter =>
      match waiter s with
      | W_start timeout =>
          Some (set_waiter (W_select (disconnect (r s)))
                  (set_timer (Armed timeout false) s))
      | _ => None
      end
  | AWaiterDone =>
      match waiter s with
      | W_select _ =>
          '(v, ch) ← chan_recv (doneChan s);
          resp ← v;
          Some (set_waiter (W_reply resp false) (set_doneChan ch s))
      | _ => None
      end
  | AWaiterDisconnect =>
      match waiter s with
      | W_select d =>
          if is_closed d (heap s)
          then Some (set_waiter (W_reply disconnect_response false) s)
          else None
      | _ => None
      end
  | AWaiterTimeout =>
      match waiter s, timer s with
      | W_select _, Armed _ true =>
          Some (set_waiter (W_reply timeout_response true) s)
      | _, _ => None
      end
  | AWaiterSend =>
      match waiter s with
      | W_reply resp cleanup =>
          ch ← chan_send (responseChan s) resp;
          Some (set_waiter (if cleanup then W_cleanup else W_done)
                  (set_responseChan ch s))
      | _ => None
      end
  | AWaiterCleanup =>
      match waiter s with
      | W_cleanup => set_waiter W_done <$> receive_and_remove s
      | _ => None
      end
  | AReply args =>
      Some (set_invocations (invocations s ++ [C_entry args])
              (set_replies (replies s ++ [args]) s))
  | ACallbackRecv i =>
      match invocations s !! i with
      | Some (C_entry args) =>
          s' ← receive_and_remove s;
          Some (set_invocations (<[i := C_decode args]> (invocations s)) s')
      | _ => None
      end
  | ACallbackFinish i =>
      match invocations s !! i with
      | Some (C_decode args) =>
          ch ← chan_send (doneChan s) (responseCallback args);
          Some (set_invocations (<[i := C_done]> (invocations s))
                  (set_doneChan ch s))
      | _ => None
      end
  | ATimerFire =>
      match timer s with
      | Armed d false => Some (set_timer (Armed d true) s)
      | _ => None
      end
  | ADisconnect =>
      let '(r', h') := onDisconnect (r s, heap s) in
      Some (set_r r' (set_heap h' s))
  | AReceive =>
      '(v, ch) ← chan_recv (responseChan s);
      resp ← v;
      Some (set_observed (observed s ++ [resp]) (set_responseChan ch s))
  end.

(** The run of a schedule, and the states a call can be in. *)
Fixpoint run (acts : list action) (s : state) : option state :=
  match acts with
  | [] => Some s
  | a :: rest => s' ← step a s; run rest s'
  end.

Inductive reachable (s0 : state) : state -> Prop :=
| reachable_init : reachable s0 s0
| reachable_step s a s' :
    reachable s0 s -> step a s = Some s' -> reachable s0 s'.

(** The outcomes delivered on [responseChan] so far: those the caller has
    received and those waiting in the buffer. *)
Definition outcomes (s : state) : list response :=
  observed s ++ buf (responseChan s).

(** How many steps of the dispatcher and of its timer are left before the
    outcome is on [responseChan], along the path on which the timer wins. *)
Definition dist (s : state) : nat :=
  match sender s, waiter s, timer s with
  | S_call, _, _ => 6
  | S_failed _, _, _ => 1
  | S_called _, _, _ => 5
  | S_returned (inr _), _, _ => 0
  | _, W_absent, _ => 5
  | _, W_start _, _ => 4
  | _, W_select _, Armed _ true => 2
  | _, W_select _, _ => 3
  | _, W_reply _ _, _ => 1
  | _, W_cleanup, _ => 0
  | _, W_done, _ => 0
  end.

(** The step that brings the outcome nearer once [Call] has returned. *)
Definition next_action (s : state) : action :=
  match sender s, waiter s, timer s with
  | S_failed _, _, _ => ASender
  | S_called _, _, _ => ASender
  | _, W_start _, _ => AWaiterEnter
  | _, W_select _, Armed _ true => AWaiterTimeout
  | _, W_select _, _ => ATimerFire
  | _, W_reply _ _, _ => AWaiterSend
  | _, _, _ => ASender
  end.

(** The arguments an invocation of the callback still holds. *)
Definition pc_args (pc : callback_pc) : option Partial :=
  match pc with
  | C_entry args | C_decode args => Some args
  | C_done => None
  end.

(** An outcome that is the response of one of the replies [rs]. *)
Definition from_reply (rs : list Partial) (o : response) : Prop :=
  exists args, args ∈ rs /\ o = responseCallback args.

(** The outcomes the goroutine can forward. *)
Definition waiter_outcome (rs : list Partial) (o : response) : Prop :=
  o = disconnect_response \/ o = timeout_response \/ from_reply rs o.

(** What is in [doneChan] was put there by an invocation of the callback,
    for a reply of the peer. *)
Definition inv_replies (s : state) : Prop :=
  (forall o, o ∈ buf (doneChan s) -> from_reply (replies s) o)
  /\ (forall pc args, pc ∈ invocations s -> pc_args pc = Some args ->
                     args ∈ replies s).

(** The invariant of a call: where the outcome is, for each pair of
    program points of [send] and of its goroutine. *)
Definition inv_outcome (s : state) : Prop :=
  cap (responseChan s) = 1
  /\ closed (responseChan s) = false
  /\ match sender s with
     | S_call | S_failed _ | S_called _ =>
         waiter s = W_absent /\ outcomes s = []
     | S_returned (inr err) =>
         waiter s = W_absent /\ outcomes s = [sendError_response err]
     | S_spawned _ | S_returned (inl _) =>
         match waiter s with
         | W_absent => False
         | W_start _ | W_select _ => outcomes s = []
         | W_reply resp cleanup =>
             outcomes s = [] /\ waiter_outcome (replies s) resp
             /\ (cleanup = true -> resp = timeout_response)
         | W_cleanup => outcomes s = [timeout_response]
         | W_done => exists o, outcomes s = [o] /\ waiter_outcome (replies s) o
         end
     end.

(** The shape an outcome has when it is a success payload or one of the
    three errors [send] builds. *)
Definition success_or_send_error (o : response) : Prop :=
  Err o = None
  \/ exists e, Err o = Some e
              /\ (Type_ e = "sendError" \/ Type_ e = "disconnect"
                  \/ Type_ e = "timeout").

(** A reply that is not exactly one argument, or whose argument does not
    decode, or decodes with neither a [result] nor an [error] key. *)
Definition invalid_reply (args : Partial) : Prop :=
  (SliceOfLength args 1).2 <> None
  \/ exists arg0, SliceOfLength args 1 = ([arg0], None)
       /\ ((Unmarshal_resp arg0).2 <> None
           \/ (("result" ∉ Unmarshal_keys arg0)
               /\ ("error" ∉ Unmarshal_keys arg0))).

(** The timer is armed on entering the [select], with the timeout the
    goroutine was started with. *)
Definition inv_timer (r0 : RemoteKite) (t0 : Duration) (s : state) : Prop :=
  timeout s = t0
  /\ tellTimeout (r s) = tellTimeout r0
  /\ match waiter s with
     | W_absent => timer s = Unarmed
     | W_start t => timer s = Unarmed /\ t = effective_timeout r0 t0
     | _ => exists fired, timer s = Armed (effective_timeout r0 t0) fired
     end.

(** The hand-off of the identifier: [removeCallback] is written once, by
    [sendCallbackID], and the identifier is consumed at most once. *)
Definition inv_remove (s : state) : Prop :=
  match sender s with
  | S_returned (inl callbacks) =>
      if (0 <? size callbacks)%nat
      then (removeCallback s = mkChan [find_max (keys_of callbacks)] 1 false
            /\ removed s = [])
           \/ (removeCallback s = mkChan [] 1 false
               /\ removed s = [find_max (keys_of callbacks)])
      else removeCallback s = mkChan [] 1 true /\ removed s = []
  | _ => removeCallback s = make 1 /\ removed s = []
  end.

(** The channels that were closed when the call started stay closed, and
    the channel the goroutine waits on in its [select] was not one of
    them. *)
Definition inv_signal (h0 : Heap) (s : state) : Prop :=
  closed_chans h0 ⊆ closed_chans (heap s)
  /\ (forall d, waiter s = W_select d -> d ∉ closed_chans h0).

End WithDnode.
End Dispatch.

(** ** The unroutable-method handler: [onError], lines 97-117 *)

Module Adapter.

Section WithDnode.
Context `{Dnode}.

(** The errors the client reports to [onError]: [dnode.MethodNotFoundError]
    with the arguments of the invocation, or any other error. *)
Inductive dnode_error : Type :=
| MethodNotFoundError (Method : string) (Args : list Partial)
| OtherError (text : string).

(** [err.Error()] and [errorForSending] belong to packages that are not in
    the file: they are parameters, and so is the type of what
    [errorForSending] returns. *)
Variable Error_text : dnode_error -> string.
Variable SentError : Type.
Variable errorForSending : Error -> SentError.

(** [callbackArg], built at lines 110-113. *)
Record callbackArg : Type := mkCallbackArg {
  cb_Result : option Partial;
  cb_Error : SentError
}.

(** [onError]: the invocations of a response continuation it makes, each
    with the argument that is passed. *)
Definition onError (err : dnode_error) : list (Function * callbackArg) :=
  match err with
  | MethodNotFoundError _ Args =>
      match Args with
      | [] => []
      | arg0 :: _ =>
          let '(ResponseCallback, uerr) := Unmarshal_options arg0 in
          match uerr with
          | Some _ => []
          | None =>
              match ResponseCallback with
              | Some f =>
                  let response :=
                    mkCallbackArg None
                      (errorForSending
                         (mkError "methodNotFound" (Error_text err))) in
                  [(f, response)]
              | None => []
              end
          end
      end
  | OtherError _ => []
  end.

End WithDnode.
End Adapter.

(** ** The wrapper of the arguments of a call: [wrapMethodArgs], lines
    270-286 *)

Module Wrappers.

Section WithValues.

(** The arguments are Go values of type [interface{}]; the wrapper tells
    apart those whose dynamic type is [Callback]. *)
Variable Value Callback : Type.

Inductive arg : Type :=
| ArgCallback (cb : Callback)
| ArgValue (v : Value).

(** [callOptionsOut], lines 259-267, with the two fields of the
    [callOptions] it embeds that are sent. *)
Record callOptionsOut : Type := mkCallOptionsOut {
  out_Kite : protocol_Kite;
  out_Authentication : Authentication;
  WithArgs : list arg;
  ResponseCallback : Callback
}.

(** [wrapMethodArgs]: [r] is the [RemoteKite] the property [remoteKite] of
    the transport points to and [localKite] is [r.localKite.Kite].  [None]
    is a panic: the index expression of line 273 on an empty slice, or its
    type assertion on a value that is not a [Callback]. *)
Definition wrapMethodArgs (localKite : protocol_Kite) (r : RemoteKite)
    (args : list arg) : option (list callOptionsOut) :=
  match last args with
  | Some (ArgCallback responseCallback) =>
      let args' := take (length args - 1) args in
      Some [mkCallOptionsOut localKite (Auth r) args' responseCallback]
  | _ => None
  end.

End WithValues.

Arguments ArgCallback {Value Callback}.
Arguments ArgValue {Value Callback}.
Arguments mkCallOptionsOut {Value Callback}.
Arguments out_Kite {Value Callback}.
Arguments out_Authentication {Value Callback}.
Arguments WithArgs {Value Callback}.
Arguments ResponseCallback {Value Callback}.
Arguments wrapMethodArgs {Value Callback}.

End Wrappers.

(** ** The credential renewal loop: lines 170-244 *)

(** A [float64] and the conversion [int64(f)], whose result is left to the
    implementation when [f] is out of range. *)
Class GoFloat : Type := {
  float64 : Type;
  int64_of_float64 : float64 -> Z
}.

Module Token.
Section WithFloat.
Context `{GoFloat}.

(** The values of [token.Claims], a [map[string]interface{}] decoded from
    JSON: a number is a [float64]. *)
Inductive claim : Type :=
| ClaimNumber (f : float64)
| ClaimString (s : string)
| ClaimBool (b : bool)
| ClaimNull.

(** [jwt.Token]: the field the file reads. *)
Record Token : Type := mkToken {
  Claims : gmap string claim
}.

End WithFloat.
End Token.

Import Token.

(** [jwt.Parse] of [github.com/dgrijalva/jwt-go]: the token, or the error,
    for a token string and the function that resolves the key. *)
Class Jwt `{GoFloat} : Type := {
  jwt_Parse : string -> (Token -> string + string) -> Token + string
}.

Module Renewal.

Section WithJwt.
Context `{Jwt}.

(** [k.trustedKontrolKeys] of the local kite. *)
Variable trustedKontrolKeys : gmap string string.

(** [getRSAKey], lines 232-244: the key, or the error. *)
Definition getRSAKey (token : Token) : string + string :=
  match Claims token !! "iss" with
  | Some (ClaimString issuer) =>
      match trustedKontrolKeys !! issuer with
      | Some key => inl key
      | None => inr ("Issuer is not trusted: " ++ issuer)%string
      end
  | _ => inr "Token does not contain a valid issuer claim"
  end.

(** How a call ends: it returns an [error] ([None] is [nil]) or panics. *)
Inductive outcome : Type :=
| Returned (err : option string)
| Panicked.

Definition set_token (key : string) (exp : Time) (r : RemoteKite) : RemoteKite :=
  mkRemoteKite (Kite r)
    (mkAuthentication (AuthType (Auth r)) key (Some exp))
    (disconnect r) (tellTimeout r).

(** [renewToken], lines 211-228, for the answer [GetToken] of Kontrol gives
    ([inl] the token string, [inr] the error).  The type assertion
    [token.Claims["exp"].(float64)] of line 222 panics unless the claim is
    there and is a number. *)
Definition renewToken (answer : string + string) (r : RemoteKite)
    : RemoteKite * outcome :=
  match answer with
  | inr err => (r, Returned (Some err))
  | inl tokenString =>
      match jwt_Parse tokenString getRSAKey with
      | inr _ => (r, Returned (Some "Cannot parse token"))
      | inl token =>
          match Claims token !! "exp" with
          | Some (ClaimNumber f) =>
              let exp := Unix (int64_of_float64 f) in
              (set_token tokenString exp r, Returned None)
          | _ => (r, Panicked)
          end
      end
  end.

(** Line 187. *)
Definition retryInterval : Duration := (10 * Second)%Z.

(** Where the goroutine of [tokenRenewer] stands. *)
Inductive renewer_pc : Type :=
| R_absent                            (* not started *)
| R_top                               (* line 173 *)
| R_select (d : N) (deadline : Time)  (* in the [select] of line 174 *)
| R_renew (retry : bool)              (* in [renewToken], called at line 189
                                         or (a retry) at line 197 *)
| R_retry_top                         (* line 194 *)
| R_retry_select (d : N) (deadline : Time)  (* in the [select] of line 195 *)
| R_exit                              (* [tokenRenewer] has returned *)
| R_panic.

(** What the loop and the connection did, oldest first. *)
Inductive event : Type :=
| EvAttempt (at_ : Time)      (* [renewToken] was called *)
| EvDisconnect (at_ : Time).  (* the disconnect handler ran *)

Record state : Type := mkState {
  r : RemoteKite;
  heap : Heap;
  now : Time;
  renewer : renewer_pc;
  events : list event
}.

Inductive action : Type :=
| AConnect                 (* the handler of lines 77-84 runs *)
| ADisconnect              (* the handler of lines 87-92 runs *)
| ATick (d : Duration)     (* time passes *)
| AEnter                   (* the loop enters a [select] *)
| ATimer                   (* the [select] takes [<-time.After(...)] *)
| ASignal                  (* the [select] takes [<-r.disconnect] *)
| ARenewed (answer : string + string).
                           (* [renewToken] ends, Kontrol having answered *)

(** Lines 173-175: the deadline of the timer, for the time the [select] is
    entered at; [r.Authentication.validUntil] is dereferenced. *)
Definition renew_deadline (r0 : RemoteKite) (t : Time) : option Time :=
  validUntil (Auth r0) ≫= fun expiry =>
    let renewTime := Time_Add expiry (-30 * Second)%Z in
    Some (t + Time_Sub renewTime t)%Z.

Definition step (a : action) (s : state) : option state :=
  match a with
  | AConnect =>
      match renewer s with
      | R_absent =>
          if onConnect (r s)
          then Some (mkState (r s) (heap s) (now s) R_top (events s))
          else Some s
      | _ => None
      end
  | ADisconnect =>
      let '(r', h') := onDisconnect (r s, heap s) in
      Some (mkState r' h' (now s) (renewer s)
              (events s ++ [EvDisconnect (now s)]))
  | ATick d =>
      if (0 <? d)%Z
      then Some (mkState (r s) (heap s) (now s + d)%Z (renewer s) (events s))
      else None
  | AEnter =>
      match renewer s with
      | R_top =>
          let pc := match renew_deadline (r s) (now s) with
                    | Some t => R_select (disconnect (r s)) t
                    | None => R_panic
                    end in
          Some (mkState (r s) (heap s) (now s) pc (events s))
      | R_retry_top =>
          Some (mkState (r s) (heap s) (now s)
                  (R_retry_select (disconnect (r s))
                     (now s + retryInterval)%Z)
                  (events s))
      | _ => None
      end
  | ATimer =>
      match renewer s with
      | R_select _ deadline =>
          if (deadline <=? now s)%Z
          then Some (mkState (r s) (heap s) (now s) (R_renew false)
                       (events s ++ [EvAttempt (now s)]))
          else None
      | R_retry_select _ deadline =>
          if (deadline <=? now s)%Z
          then Some (mkState (r s) (heap s) (now s) (R_renew true)
                       (events s ++ [EvAttempt (now s)]))
          else None
      | _ => None
      end
  | ASignal =>
      match renewer s with
      | R_select d _ | R_retry_select d _ =>
          if is_closed d (heap s)
          then Some (mkState (r s) (heap s) (now s) R_exit (events s))
          else None
      | _ => None
      end
  | ARenewed answer =>
      match renewer s with
      | R_renew _ =>
          let '(r', out) := renewToken answer (r s) in
          let pc := match out with
                    | Returned None => R_top
                    | Returned (Some _) => R_retry_top
                    | Panicked => R_panic
                    end in
          Some (mkState r' (heap s) (now s) pc (events s))
      | _ => None
      end
  end.

Fixpoint run (acts : list action) (s : state) : option state :=
  match acts with
  | [] => Some s
  | a :: rest => s' ← step a s; run rest s'
  end.

(** A connection that has just been made by [NewRemoteKite]. *)
Definition init (r0 : RemoteKite) (h : Heap) (t : Time) : state :=
  mkState r0 h t R_absent [].

(** The events that follow the first disconnect. *)
Fixpoint after_disconnect (evs : list event) : list event :=
  match evs with
  | [] => []
  | EvDisconnect _ :: rest => rest
  | EvAttempt _ :: rest => after_disconnect rest
  end.

Definition is_attempt (e : event) : bool :=
  match e with
  | EvAttempt _ => true
  | EvDisconnect _ => false
  end.

(** No renewal is attempted once the disconnect signal has fired. *)
Definition no_attempt_after_disconnect (s : state) : Prop :=
  filter (fun e => is_attempt e = true) (after_disconnect (events s)) = [].

End WithJwt.
End Renewal.

(** ** A wire format, to run the definitions on

    Modelled from the spec: the encoding of arguments belongs to
    [koding/kite/dnode], which is not in the file.  The request's first
    argument is an object with [kite], [authentication], [withArgs] and
    [responseCallback]; the reply is a single argument, an object with
    [result] and [error], the latter an object with [type] and [message].
    A token is modelled by the claims it decodes to. *)

Module Wire.

#[warnings="-register-all"]
Inductive value : Type :=
| VNull
| VNum (n : Z)
| VStr (s : string)
| VFunc (id : N)
| VArr (items : list value)
| VObj (fields : list (string * value)).

Fixpoint field (k : string) (fields : list (string * value)) : option value :=
  match fields with
  | [] => None
  | (k', v) :: rest => if String.eqb k k' then Some v else field k rest
  end.

Definition decode_slice (v : value) : list value * option string :=
  match v with
  | VArr items => (items, None)
  | VNull => ([], None)
  | _ => ([], Some "cannot unmarshal into a slice")
  end.

Definition decode_error (v : option value) : option Error * option string :=
  match v with
  | None | Some VNull => (None, None)
  | Some (VObj fs) =>
      match field "type" fs, field "message" fs with
      | Some (VStr t), Some (VStr m) => (Some (mkError t m), None)
      | _, _ => (None, Some "cannot unmarshal into Error")
      end
  | Some _ => (None, Some "cannot unmarshal into Error")
  end.

Definition decode_resp (v : value)
    : (option value * option Error) * option string :=
  match v with
  | VNull => ((None, None), None)
  | VObj fs =>
      let result := match field "result" fs with
                    | None | Some VNull => None
                    | Some x => Some x
                    end in
      let '(e, err) := decode_error (field "error" fs) in
      ((result, e), err)
  | _ => ((None, None), Some "cannot unmarshal into a struct")
  end.

Definition decode_keys (v : value) : gset string :=
  match v with
  | VObj fs => list_to_set fs.*1
  | _ => ∅
  end.

Definition decode_options (v : value) : option N * option string :=
  match v with
  | VObj fs =>
      match field "responseCallback" fs with
      | None | Some VNull => (None, None)
      | Some (VFunc id) => (Some id, None)
      | Some _ => (None, Some "cannot unmarshal into a function")
      end
  | VNull => (None, None)
  | _ => (None, Some "cannot unmarshal into a struct")
  end.

#[export] Instance wire_dnode : Dnode := {|
  Partial := value;
  Function := N;
  Unmarshal_slice := decode_slice;
  Unmarshal_resp := decode_resp;
  Unmarshal_keys := decode_keys;
  Unmarshal_options := decode_options
|}.

(** Whole numbers stand for the [float64] values. *)
#[export] Instance wire_float : GoFloat := {|
  float64 := Z;
  int64_of_float64 := fun z => z
|}.

(** A token string is its list of claims, one [name=number] per line; a
    string with no claim in it does not parse. *)
Definition parse_claim (line : string) : option (string * claim) :=
  match index 0 "=" line with
  | Some i =>
      let name := substring 0 i line in
      let digits := substring (S i) (String.length line - S i) line in
      Some (name, ClaimNumber (Z.of_N (ParseUint digits)))
  | None => None
  end.

Definition parse_token (tokenString : string) (keyFunc : Token -> string + string)
    : Token + string :=
  match tokenString with
  | EmptyString => inr "token contains an invalid number of segments"
  | _ =>
      match parse_claim tokenString with
      | Some (name, c) => inl (mkToken {[ name := c ]})
      | None => inl (mkToken ∅)
      end
  end.

#[export] Instance wire_jwt : Jwt := {|
  jwt_Parse := parse_token
|}.

End Wire.

(** ** Concrete inputs *)

Module Examples.

Import Wire.

Definition kite_ex : protocol_Kite :=
  {| Name := "math"; ID := "1"; URL := "ws://localhost:3636" |}.

Definition auth_ex : Authentication :=
  mkAuthentication "token" "key-0" (Some (Unix 1000)).

Definition heap_ex : Heap := mkHeap ∅ 0.

Definition r_ex : RemoteKite := (NewRemoteKite kite_ex auth_ex heap_ex).1.
Definition h_ex : Heap := (NewRemoteKite kite_ex auth_ex heap_ex).2.

(** The connection [NewRemoteKite] returns, no handler running. *)
Definition conn_ex : conn := mkConn r_ex h_ex false.

(** A call with one continuation among its arguments, when the next
    identifier of the client is 6. *)
Definition callbacks_ex : gmap string Dispatch.Path :=
  Dispatch.Call_callbacks 6 [["0"; "withArgs"; "1"]] ["0"; "responseCallback"].

(** The reply a peer with no handler for the method sends (see [onError]). *)
Definition reply_methodNotFound : value :=
  VArr [VObj [("error",
               VObj [("type", VStr "methodNotFound");
                     ("message", VStr "no such method")])]].

(** A reply with neither [result] nor [error]. *)
Definition reply_empty : value := VArr [VObj [("status", VStr "ok")]].

Definition call_ex (t : Duration) : Dispatch.state :=
  Dispatch.init r_ex h_ex ∅ t.

(** [Call] succeeds, the goroutine starts, the identifier is handed over. *)
Definition sched_sent : list Dispatch.action :=
  [Dispatch.ACall (inl callbacks_ex) {[ 6%N; 7%N ]};
   Dispatch.ASender; Dispatch.ASender; Dispatch.AWaiterEnter].

(** The peer replies and the reply wins the race. *)
Definition sched_reply (reply : value) : list Dispatch.action :=
  sched_sent ++
  [Dispatch.AReply reply; Dispatch.ACallbackRecv 0; Dispatch.ACallbackFinish 0;
   Dispatch.AWaiterDone; Dispatch.AWaiterSend].

(** Nothing comes back and the timer wins. *)
Definition sched_timeout : list Dispatch.action :=
  sched_sent ++
  [Dispatch.ATimerFire; Dispatch.AWaiterTimeout; Dispatch.AWaiterSend;
   Dispatch.AWaiterCleanup].

(** The peer replies with neither [result] nor [error], and the callback
    has received the identifier. *)
Definition sched_invalid : list Dispatch.action :=
  sched_sent ++ [Dispatch.AReply reply_empty; Dispatch.ACallbackRecv 0].

(** [Call] is rejected. *)
Definition sched_rejected : list Dispatch.action :=
  [Dispatch.ACall (inr "not connected") ∅].

Definition state_after (acts : list Dispatch.action) (t : Duration)
    : Dispatch.state :=
  default (call_ex t) (Dispatch.run acts (call_ex t)).

(** Whether every action of the schedule is enabled when its turn comes. *)
Definition runs (acts : list Dispatch.action) (t : Duration) : bool :=
  match Dispatch.run acts (call_ex t) with
  | Some _ => true
  | None => false
  end.

(** The renewal loop, for the credential of [auth_ex] (it expires at
    1000 s) on a connection made at 900 s: the timer of the loop fires at
    970 s and [renewToken] is called; the connection drops while Kontrol is
    being asked; Kontrol's answer is an error; the loop waits 10 s and
    calls [renewToken] again. *)
Definition sched_missed : list Renewal.action :=
  [Renewal.AConnect; Renewal.AEnter; Renewal.ATick (70 * Second)%Z;
   Renewal.ATimer; Renewal.ADisconnect;
   Renewal.ARenewed (inr "kontrol: timeout"); Renewal.AEnter;
   Renewal.ATick (10 * Second)%Z; Renewal.ATimer].

End Examples.

(** * Properties *)

(** ** Decimal numerals *)

Section GoFacts.

Lemma uint_acc_ge d acc : (acc <= uint_acc d acc)%N.
Proof.
  revert acc. induction d; intros acc; simpl; [lia|..];
    (etransitivity; [|apply IHd]); lia.
Qed.

Lemma ParseUint_loop_step c k rest acc :
  digit_of c = Some k -> (k < 10)%N -> (acc * 10 + k <= maxUint64)%N ->
  ParseUint_loop (String c rest) acc = ParseUint_loop rest (acc * 10 + k).
Proof.
  intros Hc Hk Hle. simpl. rewrite Hc.
  unfold cutoff, wrap64, maxUint64 in *.
  change (18446744073709551615 / 10 + 1)%N with 1844674407370955162%N.
  destruct (N.leb_spec 1844674407370955162 acc) as [Hge|Hlt]; [lia|].
  rewrite (N.mod_small (acc * 10)) by lia.
  rewrite (N.mod_small (acc * 10 + k)) by lia.
  destruct (N.ltb_spec (acc * 10 + k) (acc * 10)); [lia|].
  destruct (N.ltb_spec 18446744073709551615 (acc * 10 + k)); [lia|].
  done.
Qed.

Lemma ParseUint_loop_uint d acc :
  (uint_acc d acc <= maxUint64)%N ->
  ParseUint_loop (NilEmpty.string_of_uint d) acc = uint_acc d acc.
Proof.
  revert acc. induction d; intros acc Hle; simpl in Hle; [done|..];
    cbn [NilEmpty.string_of_uint uint_acc];
    match goal with
    | |- ParseUint_loop (String ?c _) _ = uint_acc _ (_ * 10 + ?k)%N =>
        rewrite (ParseUint_loop_step c k _ _ eq_refl);
        [ by apply IHd
        | done
        | etransitivity; [apply uint_acc_ge | exact Hle] ]
    end.
Qed.

Lemma of_uint_acc_uint_acc d p :
  Npos (Pos.of_uint_acc d p) = uint_acc d (Npos p).
Proof.
  revert p. induction d; intros p; simpl; [done|..]; rewrite IHd; f_equal; lia.
Qed.

Lemma of_uint_uint_acc d : N.of_uint d = uint_acc d 0.
Proof.
  unfold N.of_uint.
  induction d; simpl; try done; rewrite of_uint_acc_uint_acc; done.
Qed.

(** [ParseUint] reads back what [FormatUint] prints. *)
Lemma ParseUint_FormatUint n :
  (n <= maxUint64)%N -> ParseUint (FormatUint n) = n.
Proof.
  intros Hle. unfold FormatUint, NilZero.string_of_uint.
  assert (Hnn : N.to_uint n <> Nil).
  { destruct n; simpl; [done|]. apply DecimalPos.Unsigned.to_uint_nonnil. }
  pose proof (DecimalN.Unsigned.of_to n) as Hof.
  rewrite of_uint_uint_acc in Hof.
  assert (Hloop : ParseUint_loop (NilEmpty.string_of_uint (N.to_uint n)) 0 = n).
  { rewrite ParseUint_loop_uint; [done | by rewrite Hof]. }
  destruct (N.to_uint n); [done|..]; exact Hloop.
Qed.

Lemma FormatUint_inj n m :
  (n <= maxUint64)%N -> (m <= maxUint64)%N -> FormatUint n = FormatUint m -> n = m.
Proof.
  intros Hn Hm Heq.
  rewrite <- (ParseUint_FormatUint n), <- (ParseUint_FormatUint m) by done.
  by rewrite Heq.
Qed.

End GoFacts.

(** ** The disconnect signal *)

Section ConnFacts.

Implicit Types (rh : RemoteKite * Heap) (es : list conn_event) (c : conn).

Lemma onDisconnect_disconnect rh :
  disconnect (onDisconnect rh).1 = next_chan rh.2.
Proof. by destruct rh as [r0 h]. Qed.

Lemma onDisconnect_closed rh :
  closed_chans (onDisconnect rh).2 = {[ disconnect rh.1 ]} ∪ closed_chans rh.2.
Proof. by destruct rh as [r0 h]. Qed.

Lemma onDisconnect_next rh :
  next_chan (onDisconnect rh).2 = (next_chan rh.2 + 1)%N.
Proof. by destruct rh as [r0 h]. Qed.

Lemma onDisconnect_heap_ok rh : heap_ok rh -> heap_ok (onDisconnect rh).
Proof.
  intros (Hd & Hc & Hn). unfold heap_ok.
  rewrite onDisconnect_disconnect, onDisconnect_closed, onDisconnect_next.
  split; [lia|]. split.
  - intros c [->%elem_of_singleton | Hin]%elem_of_union; [lia|].
    specialize (Hc c Hin). lia.
  - intros [Heq%elem_of_singleton | Hin]%elem_of_union; [lia|].
    specialize (Hc _ Hin). lia.
Qed.

Lemma NewRemoteKite_heap_ok kite auth h :
  (forall d, d ∈ closed_chans h -> (d < next_chan h)%N) ->
  heap_ok (NewRemoteKite kite auth h).
Proof.
  intros Hc. unfold heap_ok; simpl. split; [lia|]. split.
  - intros d Hin. specialize (Hc d Hin). lia.
  - intros Hin. specialize (Hc _ Hin). lia.
Qed.

(** The handler as one step is its two statements, one after the other. *)
Lemma onDisconnect_split rh : onDisconnect rh = handler_replace (handler_close rh).
Proof. by destruct rh as [r0 h]. Qed.

Lemma heap_ok_conn_ok rh : heap_ok rh -> conn_ok (mkConn rh.1 rh.2 false).
Proof.
  intros (Hd & Hc & Hn). unfold conn_ok; simpl. split; [done|]. split; [done|].
  split; [done | by intros ?].
Qed.

Lemma conn_step_ok e c c' : conn_ok c -> conn_step e c = Some c' -> conn_ok c'.
Proof.
  intros (Hd & Hc & Hh) Hstep. destruct c as [r0 h b]. simpl in *.
  destruct e, b; simpl in Hstep; simplify_eq; unfold conn_ok; simpl.
  - done.
  - done.
  - split; [done|]. split.
    + intros d [->%elem_of_singleton | Hin]%elem_of_union; [done | by apply Hc].
    + split; [intros _; set_solver | done].
  - split; [lia|]. split.
    + intros d Hin. specialize (Hc d Hin). lia.
    + split; [done|]. intros Hin. specialize (Hc _ Hin). lia.
Qed.

Lemma conn_run_ok es c c' : conn_ok c -> conn_run es c = Some c' -> conn_ok c'.
Proof.
  revert c. induction es as [|e es IH]; intros c Hok Hrun; simpl in *.
  - by simplify_eq.
  - destruct (conn_step e c) as [c1|] eqn:Hstep; simpl in *; [|done].
    eauto using conn_step_ok.
Qed.

(** A closed channel stays closed, and identities are never handed out
    twice. *)
Lemma conn_step_mono e c c' :
  conn_step e c = Some c' ->
  closed_chans (conn_heap c) ⊆ closed_chans (conn_heap c')
  /\ (next_chan (conn_heap c) <= next_chan (conn_heap c'))%N.
Proof.
  intros Hstep. destruct c as [r0 h b]. simpl in *.
  destruct e, b; simpl in Hstep; simplify_eq; simpl; split; try done;
    try lia; set_solver.
Qed.

Lemma conn_run_mono es c c' :
  conn_run es c = Some c' ->
  closed_chans (conn_heap c) ⊆ closed_chans (conn_heap c')
  /\ (next_chan (conn_heap c) <= next_chan (conn_heap c'))%N.
Proof.
  revert c. induction es as [|e es IH]; intros c Hrun; simpl in *.
  - by simplify_eq.
  - destruct (conn_step e c) as [c1|] eqn:Hstep; simpl in *; [|done].
    destruct (conn_step_mono _ _ _ Hstep) as [Hc Hn].
    destruct (IH _ Hrun) as [Hc' Hn']. split; [set_solver | lia].
Qed.

(** The channel that is in place while no handler runs is closed by the
    first disconnect that follows, and by nothing else. *)
Lemma conn_run_closed_current es c c' :
  conn_ok c -> handling c = false ->
  conn_run es c = Some c' ->
  disconnect (conn_kite c) ∈ closed_chans (conn_heap c') <-> HandlerClose ∈ es.
Proof.
  revert c. induction es as [|e es IH]; intros c Hok Hh Hrun; simpl in *.
  - simplify_eq. destruct Hok as (_ & _ & Hiff). rewrite <- Hiff, Hh.
    split; [done | by intros ?%elem_of_nil].
  - destruct (conn_step e c) as [c1|] eqn:Hstep; simpl in *; [|done].
    destruct e; simpl in Hstep.
    + simplify_eq. rewrite IH by done. set_solver.
    + rewrite Hh in Hstep. simplify_eq.
      destruct (conn_run_mono _ _ _ Hrun) as [Hsub _]. simpl in Hsub.
      split; [intros _; apply elem_of_cons; by left|].
      intros _. apply Hsub. set_solver.
    + by rewrite Hh in Hstep.
Qed.

(** C6, as amended.  Making the connection again leaves [r.disconnect] in
    place.  A disconnect closes the channel in place, which every task that
    holds it observes from then on, and the next statement of the handler
    puts a channel in its place that was never in place before and is not
    closed.  So the signal a task reads while no run of the handler stands
    between these two statements is not fired when it is read, and it fires
    exactly when a disconnect follows the read: never because of an earlier
    one. *)
Theorem disconnect_signal_epochs c0 pre post c1 c2 :
  conn_ok c0 ->
  conn_run pre c0 = Some c1 ->
  conn_run post c1 = Some c2 ->
  conn_step Connected c2 = Some c2
  /\ (forall c3, conn_step HandlerClose c2 = Some c3 ->
        disconnect (conn_kite c3) = disconnect (conn_kite c2)
        /\ (disconnect (conn_kite c2) ∈ closed_chans (conn_heap c3)))
  /\ (forall d, d ∈ closed_chans (conn_heap c1) ->
        d ∈ closed_chans (conn_heap c2))
  /\ (forall c3, conn_step HandlerReplace c2 = Some c3 ->
        (disconnect (conn_kite c3) ∉ closed_chans (conn_heap c3))
        /\ disconnect (conn_kite c3) <> disconnect (conn_kite c2)
        /\ disconnect (conn_kite c3) <> disconnect (conn_kite c1)
        /\ disconnect (conn_kite c3) <> disconnect (conn_kite c0))
  /\ (handling c1 = false ->
        (disconnect (conn_kite c1) ∉ closed_chans (conn_heap c1))
        /\ (disconnect (conn_kite c1) ∈ closed_chans (conn_heap c2)
            <-> HandlerClose ∈ post)).
Proof.
  intros Hok0 Hpre Hpost.
  pose proof (conn_run_ok _ _ _ Hok0 Hpre) as Hok1.
  pose proof (conn_run_ok _ _ _ Hok1 Hpost) as Hok2.
  destruct (conn_run_mono _ _ _ Hpre) as [_ Hn01].
  destruct (conn_run_mono _ _ _ Hpost) as [Hc12 Hn12].
  split; [done|]. split.
  { intros c3 Hstep. simpl in Hstep. destruct (handling c2); simplify_eq.
    simpl. split; [done | set_solver]. }
  split; [intros d Hd; by apply Hc12|]. split.
  { intros c3 Hstep. pose proof (conn_step_ok _ _ _ Hok2 Hstep) as (_ & _ & Hiff).
    simpl in Hstep. destruct (handling c2); simplify_eq. simpl in *.
    destruct Hok0 as (Hd0 & _), Hok1 as (Hd1 & _), Hok2 as (Hd2 & _).
    split_and!; [|lia..]. intros Hin. apply Hiff in Hin. done. }
  intros Hh. split.
  - destruct Hok1 as (_ & _ & Hiff). rewrite <- Hiff, Hh. done.
  - by apply conn_run_closed_current.
Qed.

End ConnFacts.

Section ConnExamples.

Import Examples.

Lemma disconnect_signal_epochs_witness :
  conn_ok conn_ex
  /\ (exists c1 c2,
        conn_run [Connected; HandlerClose; HandlerReplace; Connected] conn_ex
        = Some c1
        /\ conn_run [HandlerClose] c1 = Some c2
        /\ handling c1 = false
        /\ (disconnect (conn_kite c1) ∉ closed_chans (conn_heap c1))
        /\ (disconnect (conn_kite c1) ∈ closed_chans (conn_heap c2))).
Proof.
  assert (Hok : conn_ok conn_ex).
  { apply (heap_ok_conn_ok (r_ex, h_ex)).
    apply (NewRemoteKite_heap_ok kite_ex auth_ex heap_ex).
    intros c Hc. by apply elem_of_empty in Hc. }
  split; [exact Hok|].
  eexists _, _. split; [reflexivity|]. split; [reflexivity|].
  split; [reflexivity|].
  destruct (disconnect_signal_epochs conn_ex
              [Connected; HandlerClose; HandlerReplace; Connected]
              [HandlerClose] _ _ Hok eq_refl eq_refl)
    as (_ & _ & _ & _ & Hread).
  destruct (Hread eq_refl) as [Hopen Hiff].
  split; [exact Hopen|]. apply Hiff. apply elem_of_cons. by left.
Defined.

(** The connection made again after a disconnect keeps the channel the
    handler of the disconnect had put in place: the replacement happened at
    the disconnect, not at the reconnect.  And a task that reads
    [r.disconnect] between the two statements of the handler holds a
    channel that is already closed. *)
Lemma signal_not_replaced_on_reconnect :
  exists c c',
    conn_run [Connected; HandlerClose; HandlerReplace] conn_ex = Some c
    /\ ~ replaced_on_reconnect c
    /\ disconnect (conn_kite c) <> disconnect (conn_kite conn_ex)
    /\ conn_run [Connected; HandlerClose] conn_ex = Some c'
    /\ (disconnect (conn_kite c') ∈ closed_chans (conn_heap c')).
Proof.
  eexists _, _. split; [reflexivity|]. split.
  { intros (c3 & Hstep & Hne). simpl in Hstep. by simplify_eq. }
  split; [vm_compute; discriminate|]. split; [reflexivity|].
  simpl. set_solver.
Qed.

End ConnExamples.

(** ** The identifier [sendCallbackID] hands over *)

Import Dispatch.

Section MaxFacts.

Implicit Types (ids : list string) (callbacks : gmap string Path).

Lemma fold_max_ge_acc ids a : (a <= fold_left max_step ids a)%N.
Proof.
  revert a. induction ids as [|id ids IH]; intros a; simpl; [lia|].
  etransitivity; [|apply IH]. unfold max_step.
  destruct (N.ltb_spec a (ParseUint id)); lia.
Qed.

Lemma fold_max_ge ids a id :
  id ∈ ids -> (ParseUint id <= fold_left max_step ids a)%N.
Proof.
  revert a. induction ids as [|id' ids IH]; intros a Hin; simpl.
  - by apply elem_of_nil in Hin.
  - apply elem_of_cons in Hin as [-> | Hin]; [|by apply IH].
    etransitivity; [|apply fold_max_ge_acc]. unfold max_step.
    destruct (N.ltb_spec a (ParseUint id')); lia.
Qed.

Lemma fold_max_in ids a :
  fold_left max_step ids a = a
  \/ exists id, id ∈ ids /\ fold_left max_step ids a = ParseUint id.
Proof.
  revert a. induction ids as [|id ids IH]; intros a; simpl; [by left|].
  destruct (IH (max_step a id)) as [Heq | (id' & Hin & Heq)].
  - rewrite Heq. unfold max_step.
    destruct (N.ltb_spec a (ParseUint id)); [right|by left].
    exists id. split; [apply elem_of_cons; by left | done].
  - right. exists id'. split; [apply elem_of_cons; by right | done].
Qed.

(** [find_max] is the maximum of the identifiers, read as numbers. *)
Lemma find_max_ge ids id : id ∈ ids -> (ParseUint id <= find_max ids)%N.
Proof. apply fold_max_ge. Qed.

Lemma find_max_in ids :
  ids <> [] -> exists id, id ∈ ids /\ find_max ids = ParseUint id.
Proof.
  intros Hne. destruct (fold_max_in ids 0) as [Heq | Hex]; [|done].
  destruct ids as [|id ids]; [done|]. exists id.
  split; [apply elem_of_cons; by left|].
  pose proof (find_max_ge (id :: ids) id) as Hge. unfold find_max in *.
  rewrite Heq in *. assert (id ∈ id :: ids) by (apply elem_of_cons; by left).
  specialize (Hge ltac:(done)). lia.
Qed.

Lemma find_max_unique ids n :
  (forall id, id ∈ ids -> (ParseUint id <= n)%N) ->
  (exists id, id ∈ ids /\ ParseUint id = n) ->
  find_max ids = n.
Proof.
  intros Hub (id & Hin & Heq). apply N.le_antisymm.
  - destruct (fold_max_in ids 0) as [H0 | (id' & Hin' & H')]; unfold find_max.
    + rewrite H0. lia.
    + rewrite H'. by apply Hub.
  - rewrite <- Heq. by apply find_max_ge.
Qed.

(** The order in which the [range] visits the keys does not matter. *)
Lemma find_max_perm ids ids' : ids ≡ₚ ids' -> find_max ids = find_max ids'.
Proof.
  intros Hp. destruct ids' as [|id0 ids'].
  - apply Permutation_nil_r in Hp. by subst.
  - destruct (find_max_in (id0 :: ids')) as (id & Hin & Heq); [done|].
    rewrite Heq. apply find_max_unique.
    + intros id' Hin'. rewrite <- Heq. apply find_max_ge. by rewrite <- Hp.
    + exists id. split; [by rewrite Hp | done].
Qed.

Lemma elem_of_keys_of callbacks id :
  id ∈ keys_of callbacks <-> is_Some (callbacks !! id).
Proof.
  unfold keys_of. rewrite list_elem_of_fmap. split.
  - intros ([k p] & -> & Hin). apply elem_of_map_to_list in Hin. by eexists.
  - intros [p Hp]. exists (id, p). split; [done|]. by apply elem_of_map_to_list.
Qed.

Lemma keys_of_nonempty callbacks : 0 < size callbacks -> keys_of callbacks <> [].
Proof.
  unfold keys_of. intros Hs Hnil. apply fmap_nil_inv in Hnil.
  apply map_to_list_empty_iff in Hnil. subst. rewrite map_size_empty in Hs. lia.
Qed.

Lemma sendCallbackID_fresh callbacks :
  sendCallbackID callbacks (make 1) =
  Some (if (0 <? size callbacks)%nat
        then mkChan [find_max (keys_of callbacks)] 1 false
        else mkChan [] 1 true).
Proof. unfold sendCallbackID. by destruct (0 <? size callbacks)%nat. Qed.

(** *** The identifiers the transport mints *)

Lemma mint_snoc seq l p m :
  (seq + N.of_nat (length l) <= maxUint64)%N ->
  mint seq (l ++ [p]) m =
  <[FormatUint (seq + N.of_nat (length l)) := p]> (mint seq l m).
Proof.
  revert seq m. induction l as [|q l IH]; intros seq m Hle; simpl in *.
  - by rewrite N.add_0_r.
  - unfold wrap64, maxUint64 in *. rewrite N.mod_small by lia.
    rewrite IH by lia. do 2 f_equal. lia.
Qed.

Lemma mint_keys seq l m k :
  (seq + N.of_nat (length l) <= maxUint64 + 1)%N ->
  is_Some (mint seq l m !! k) ->
  is_Some (m !! k)
  \/ exists i, (i < N.of_nat (length l))%N /\ k = FormatUint (seq + i).
Proof.
  revert seq m. induction l as [|q l IH]; intros seq m Hle Hk; simpl in *.
  - by left.
  - assert (Hhere : is_Some (<[FormatUint seq := q]> m !! k) ->
                    is_Some (m !! k)
                    \/ exists i, (i < N.of_nat (S (length l)))%N
                                 /\ k = FormatUint (seq + i)).
    { intros [<- | [_ Hm]]%lookup_insert_is_Some; [|by left].
      right. exists 0%N. split; [lia | by rewrite N.add_0_r]. }
    destruct l as [|q' l]; [by apply Hhere|].
    unfold wrap64, maxUint64 in *. simpl length in *.
    rewrite N.mod_small in Hk by lia.
    apply IH in Hk; [|lia]. destruct Hk as [Hk | (i & Hi & ->)]; [by apply Hhere|].
    right. exists (i + 1)%N. split; [lia | f_equal; lia].
Qed.

(** Under the minting of the spec, the maximum is the identifier of the
    response continuation. *)
Lemma Call_callbacks_max seq nested top :
  (seq + N.of_nat (length nested) <= maxUint64)%N ->
  find_max (keys_of (Call_callbacks seq nested top)) = top_id seq nested
  /\ Call_callbacks seq nested top !! FormatUint (top_id seq nested) = Some top.
Proof.
  intros Hle. unfold Call_callbacks, top_id. rewrite mint_snoc by done.
  assert (Hw : wrap64 (seq + N.of_nat (length nested))
               = (seq + N.of_nat (length nested))%N).
  { unfold wrap64, maxUint64 in *. apply N.mod_small. lia. }
  rewrite Hw. split; [|apply lookup_insert_eq].
  apply find_max_unique.
  - intros id [<- | [_ Hin]]%elem_of_keys_of%lookup_insert_is_Some.
    + by rewrite ParseUint_FormatUint.
    + apply mint_keys in Hin as [[? Hin] | (i & Hi & ->)]; [done| |lia].
      rewrite ParseUint_FormatUint by lia. lia.
  - exists (FormatUint (seq + N.of_nat (length nested))). split.
    + apply elem_of_keys_of. rewrite lookup_insert_eq. by eexists.
    + by apply ParseUint_FormatUint.
Qed.

End MaxFacts.

(** ** The call dispatcher *)

Section DispatchFacts.
Context `{Dnode}.

Implicit Types (s : state) (a : action).

(** Case analysis on an enabled step. *)
Ltac step_cases Hstep :=
  unfold step, receive_and_remove, sendCallbackID, chan_send, chan_recv in Hstep;
  repeat (simplify_option_eq; try case_match);
  simplify_option_eq.

(** Case analysis on an invariant that is a [match] on program points. *)
Ltac break_inv :=
  repeat match goal with
    | H : match ?x with _ => _ end |- _ => destruct x
    | H : _ /\ _ |- _ => destruct H
    | H : exists _, _ |- _ => destruct H
    | H : False |- _ => destruct H
    | H : _ ++ _ = [] |- _ => apply app_eq_nil in H
    | H : (_ <? _)%nat = true |- _ => apply Nat.ltb_lt in H
    | H : (_ <? _)%nat = false |- _ => apply Nat.ltb_ge in H
    end;
  simplify_eq/=.

Lemma run_reachable acts s0 s : run acts s0 = Some s -> reachable s0 s.
Proof.
  intros Hrun.
  assert (Hgen : forall s1, reachable s0 s1 -> run acts s1 = Some s ->
                            reachable s0 s).
  { clear Hrun. induction acts as [|a acts IH]; intros s1 Hr Hrun; simpl in *.
    - by simplify_eq.
    - destruct (step a s1) as [s2|] eqn:Hs; simpl in *; [|done].
      eapply IH; [|done]. by eapply reachable_step. }
  eapply Hgen; [apply reachable_init | done].
Qed.

Lemma reachable_run s0 s : reachable s0 s -> exists acts, run acts s0 = Some s.
Proof.
  induction 1 as [|s a s' _ [acts IH] Hstep].
  - by exists [].
  - exists (acts ++ [a]). revert IH. generalize s0.
    induction acts as [|b acts IHa]; intros s1 Hrun; simpl in *.
    + simplify_eq. by rewrite Hstep.
    + destruct (step b s1); simpl in *; [by apply IHa | done].
Qed.

Lemma from_reply_mono (rs rs' : list Partial) o :
  rs ⊆ rs' -> from_reply rs o -> from_reply rs' o.
Proof. intros Hsub (args & Hin & ->). exists args. split; [by apply Hsub | done]. Qed.

Lemma waiter_outcome_mono (rs rs' : list Partial) o :
  rs ⊆ rs' -> waiter_outcome rs o -> waiter_outcome rs' o.
Proof.
  intros Hsub [-> | [-> | Hr]]; unfold waiter_outcome; eauto using from_reply_mono.
Qed.

Lemma step_replies a s s' : step a s = Some s' -> replies s ⊆ replies s'.
Proof.
  intros Hstep. destruct a; step_cases Hstep; destruct s; simpl in *;
    try done; set_solver.
Qed.

Lemma elem_of_insert_inv {A} (l : list A) i x y :
  y ∈ <[i:=x]> l -> y = x \/ y ∈ l.
Proof.
  intros (j & Hj)%list_elem_of_lookup.
  apply list_lookup_insert_Some in Hj as [(-> & -> & _) | (_ & Hj)]; [by left|].
  right. apply list_elem_of_lookup. eauto.
Qed.

Lemma inv_replies_init r0 h0 reg0 t0 : inv_replies (init r0 h0 reg0 t0).
Proof. split; simpl; set_solver. Qed.

Lemma inv_replies_step a s s' :
  inv_replies s -> step a s = Some s' -> inv_replies s'.
Proof.
  intros (Hdone & Hinv) Hstep.
  destruct s; unfold inv_replies in *; simpl in *.
  destruct a; step_cases Hstep; simpl in *; try done.
  - (* AWaiterDone *)
    split; [|done]. intros o Ho. apply Hdone, elem_of_cons. by right.
  - (* AReply *)
    split.
    + intros o Ho. eapply from_reply_mono; [|by apply Hdone]. set_solver.
    + intros pc args' [Hin | ->%list_elem_of_singleton]%elem_of_app Hpc.
      * apply elem_of_app. left. eauto.
      * simpl in Hpc. simplify_eq. set_solver.
  - (* ACallbackRecv, an identifier received *)
    split; [done|]. intros pc args' [-> | Hin]%elem_of_insert_inv Hpc; [|eauto].
    simpl in Hpc. simplify_eq. eapply Hinv; [by eapply list_elem_of_lookup_2|done].
  - (* ACallbackRecv, channel closed *)
    split; [done|]. intros pc args' [-> | Hin]%elem_of_insert_inv Hpc; [|eauto].
    simpl in Hpc. simplify_eq. eapply Hinv; [by eapply list_elem_of_lookup_2|done].
  - (* ACallbackFinish *)
    split.
    + intros o [Hin | ->%list_elem_of_singleton]%elem_of_app; [eauto|].
      eexists. split; [|done].
      eapply Hinv; [by eapply list_elem_of_lookup_2|done].
    + intros pc args' [-> | Hin]%elem_of_insert_inv Hpc; [done|eauto].
Qed.

Lemma inv_outcome_init r0 h0 reg0 t0 : inv_outcome (init r0 h0 reg0 t0).
Proof. unfold inv_outcome; simpl. repeat split; try done; set_solver. Qed.

Lemma inv_outcome_step a s s' :
  inv_replies s -> inv_outcome s -> step a s = Some s' -> inv_outcome s'.
Proof.
  intros (Hdone & _) (Hcap & Hcl & Hpc) Hstep.
  pose proof (step_replies _ _ _ Hstep) as Hsub.
  destruct s; unfold inv_outcome, outcomes in *; simpl in *.
  destruct a; step_cases Hstep; simpl in *.
  all: break_inv.
  all: repeat match goal with
         | H : length ?l < 1 |- _ => destruct l; [clear H | simpl in H; lia]
         | |- _ /\ _ => split
         end; simpl; try done.
  all: eauto using from_reply_mono, waiter_outcome_mono.
  all: repeat match goal with
         | H : buf ?c = _ |- _ => rewrite H in *; clear H
         end; rewrite <- ?app_assoc; simpl in *; try done.
  all: try (unfold waiter_outcome; naive_solver).
  all: right; right; apply Hdone, elem_of_cons; by left.
Qed.

Lemma reachable_inv_replies r0 h0 reg0 t0 s :
  reachable (init r0 h0 reg0 t0) s -> inv_replies s.
Proof.
  induction 1; eauto using inv_replies_init, inv_replies_step.
Qed.

Lemma reachable_inv_outcome r0 h0 reg0 t0 s :
  reachable (init r0 h0 reg0 t0) s -> inv_outcome s.
Proof.
  induction 1 as [|s a s' Hr IH Hstep]; [apply inv_outcome_init|].
  eauto using inv_outcome_step, reachable_inv_replies.
Qed.

Lemma inv_timer_step r0 t0 a s s' :
  inv_outcome s -> inv_timer r0 t0 s -> step a s = Some s' -> inv_timer r0 t0 s'.
Proof.
  intros (_ & _ & Hpc) (Ht & Htell & Hw) Hstep.
  destruct s; unfold inv_timer, onDisconnect in *; simpl in *.
  destruct a; step_cases Hstep; simpl in *.
  all: break_inv; repeat split; try done; eauto.
  unfold effective_timeout. by rewrite Htell.
Qed.

Lemma reachable_inv_timer r0 h0 reg0 t0 s :
  reachable (init r0 h0 reg0 t0) s -> inv_timer r0 t0 s.
Proof.
  induction 1 as [|s a s' Hr IH Hstep]; [done|].
  eauto using inv_timer_step, reachable_inv_outcome.
Qed.

Lemma inv_remove_step a s s' :
  inv_outcome s -> inv_remove s -> step a s = Some s' -> inv_remove s'.
Proof.
  intros (_ & _ & Hpc) Hrm Hstep.
  destruct s; unfold inv_remove in *; simpl in *.
  destruct a; step_cases Hstep; simpl in *.
  all: break_inv; try done; eauto.
  all: match goal with
       | Hor : _ \/ _ |- _ => destruct Hor as [[-> ->]|[-> ->]]
       end; simplify_eq/=; eauto.
Qed.

Lemma reachable_inv_remove r0 h0 reg0 t0 s :
  reachable (init r0 h0 reg0 t0) s -> inv_remove s.
Proof.
  induction 1 as [|s a s' Hr IH Hstep]; [done|].
  eauto using inv_remove_step, reachable_inv_outcome.
Qed.

Ltac rew_bufs :=
  repeat match goal with
    | Heq : _ ++ _ = _ |- _ => rewrite Heq
    | Heq : buf _ = _ |- _ => rewrite Heq
    end.

Lemma dist_step a s s' :
  inv_outcome s -> step a s = Some s' -> dist s' <= dist s.
Proof.
  intros (_ & _ & Hpc) Hstep.
  destruct s; unfold dist, onDisconnect in *; simpl in *.
  destruct a; step_cases Hstep; simpl in *.
  all: break_inv; try lia.
  all: repeat case_match; simplify_eq/=; try lia.
Qed.

Lemma progress r0 t0 s :
  inv_outcome s -> inv_timer r0 t0 s -> outcomes s = [] -> sender s <> S_call ->
  exists s', step (next_action s) s = Some s' /\ dist s' < dist s.
Proof.
  intros (Hcap & Hcl & Hpc) (_ & _ & Hw) Hout Hne.
  destruct s; unfold dist, next_action, outcomes in *; simpl in *.
  apply app_eq_nil in Hout as [-> Hbuf].
  destruct sender0 as [| err | cbs | cbs | [cbs|err]]; simpl in *; try done.
  all: rewrite ?Hbuf in *; break_inv;
       repeat match goal with x : bool |- _ => destruct x end;
       unfold step, chan_send; simpl; rewrite ?Hcl, ?Hbuf, ?Hcap; simpl;
       try (eexists; split; [done|simpl; lia]).
Qed.

Lemma call_returns s res reg' :
  sender s = S_call ->
  exists s', step (ACall res reg') s = Some s' /\ dist s' < dist s.
Proof.
  intros Hs. unfold step. rewrite Hs. eexists. split; [done|].
  unfold dist. rewrite Hs. by destruct res; simpl; lia.
Qed.

Lemma next_action_stable a s s' :
  inv_outcome s -> step a s = Some s' -> dist s' = dist s ->
  next_action s' = next_action s.
Proof.
  intros (_ & _ & Hpc) Hstep.
  destruct s; unfold dist, next_action, onDisconnect in *; simpl in *.
  destruct a; step_cases Hstep; simpl in *.
  all: break_inv; try done.
  all: repeat case_match; simplify_eq/=; try done; try lia.
Qed.

Lemma dist_zero s : inv_outcome s -> dist s = 0 <-> length (outcomes s) = 1.
Proof.
  intros (_ & _ & Hpc).
  destruct s; unfold dist, outcomes in *; simpl in *.
  destruct sender0 as [| err | cbs | cbs | [cbs|err]]; simpl in *.
  all: break_inv; repeat case_match; simplify_eq/=; split; try done; try lia.
  all: rew_bufs; done.
Qed.

Lemma outcomes_length s : inv_outcome s -> length (outcomes s) <= 1.
Proof.
  intros (_ & _ & Hpc).
  destruct s; unfold outcomes in *; simpl in *.
  destruct sender0 as [| err | cbs | cbs | [cbs|err]]; simpl in *.
  all: break_inv; repeat case_match; simplify_eq/=.
  all: rew_bufs; simpl; lia.
Qed.

Lemma outcomes_kind s o :
  inv_outcome s -> o ∈ outcomes s ->
  (exists err, sender s = S_returned (inr err) /\ o = sendError_response err)
  \/ (exists callbacks, sender s = S_returned (inl callbacks) \/ sender s = S_spawned callbacks)
     /\ waiter_outcome (replies s) o.
Proof.
  intros (_ & _ & Hpc).
  destruct s; unfold outcomes in *; simpl in *.
  destruct sender0 as [| err | cbs | cbs | [cbs|err]]; simpl in *.
  all: break_inv; repeat case_match; simplify_eq/=.
  all: rew_bufs.
  all: intros Hin; try (by apply elem_of_nil in Hin).
  all: apply list_elem_of_singleton in Hin as ->.
  all: unfold waiter_outcome; eauto 8.
Qed.

(** Once an outcome is on [responseChan], no step adds another or changes it. *)
Lemma outcomes_stable a s s' :
  inv_replies s -> inv_outcome s -> step a s = Some s' ->
  outcomes s <> [] -> outcomes s' = outcomes s.
Proof.
  intros Hr Hi Hstep Hne.
  pose proof (inv_outcome_step _ _ _ Hr Hi Hstep) as Hi'.
  pose proof (outcomes_length _ Hi) as Hl.
  pose proof (outcomes_length _ Hi') as Hl'.
  destruct Hi as (Hcap & Hcl & Hpc).
  destruct s; unfold outcomes in *; simpl in *.
  destruct a; step_cases Hstep; simpl in *; try done.
  all: rewrite ?length_app in *; simpl in *; try lia.
  all: try (destruct observed0, (buf responseChan0); simpl in *; try done; lia).
Qed.

(** *** Exactly one outcome *)

(** C1, as amended.  For every call, in every state it can reach: at most
    one outcome has been delivered on [responseChan]; an outcome is the
    [sendError] of a rejected [Call], or [disconnect], or [timeout], or the
    response of one of the peer's replies (a success payload, or the error
    the reply carries or is found to have); [Call] returning and then the
    step [next_action] are enabled and bring the outcome nearer as long as
    there is none, no step takes it further away or disables that step, and
    the outcome is there when no step is left; once delivered, the outcome
    never changes. *)
Theorem exactly_one_outcome r0 h0 reg0 t0 s :
  reachable (init r0 h0 reg0 t0) s ->
  length (outcomes s) <= 1
  /\ (forall o, o ∈ outcomes s ->
        (exists err, o = sendError_response err)
        \/ o = disconnect_response
        \/ o = timeout_response
        \/ from_reply (replies s) o)
  /\ (sender s = S_call ->
        forall res reg', exists s',
          step (ACall res reg') s = Some s' /\ dist s' < dist s)
  /\ (sender s <> S_call -> outcomes s = [] ->
        exists s', step (next_action s) s = Some s' /\ dist s' < dist s)
  /\ (forall a s', step a s = Some s' ->
        dist s' <= dist s
        /\ (dist s' = dist s -> next_action s' = next_action s)
        /\ (outcomes s <> [] -> outcomes s' = outcomes s))
  /\ (dist s = 0 <-> length (outcomes s) = 1).
Proof.
  intros Hr.
  pose proof (reachable_inv_outcome _ _ _ _ _ Hr) as Hi.
  pose proof (reachable_inv_replies _ _ _ _ _ Hr) as Hrep.
  pose proof (reachable_inv_timer _ _ _ _ _ Hr) as Ht.
  split; [by apply outcomes_length|].
  split.
  { intros o Ho.
    destruct (outcomes_kind _ _ Hi Ho) as [(err & _ & ->) | (_ & Hw)]; [eauto|].
    destruct Hw as [-> | [-> | Hw]]; eauto. }
  split; [intros Hs res reg'; by apply call_returns|].
  split; [intros Hs Ho; by eapply progress|].
  split; [|by apply dist_zero].
  intros a s' Hstep. split; [by eapply dist_step|].
  split; [by eapply next_action_stable | by eapply outcomes_stable].
Qed.

(** *** The timeout that is armed *)

(** C7.  When a call is dispatched with [timeout == 0], the timer of the
    [select] is armed with the [tellTimeout] of the connection; for a
    [RemoteKite] that [NewRemoteKite] has just made this is
    [DefaultTellTimeout], 4 seconds. *)
Theorem zero_timeout_arms_default r0 h0 reg0 s d fired :
  reachable (init r0 h0 reg0 0%Z) s ->
  timer s = Armed d fired ->
  d = tellTimeout r0
  /\ (forall kite auth h, r0 = (NewRemoteKite kite auth h).1 ->
        d = DefaultTellTimeout /\ d = (4 * Second)%Z /\ d = 4000000000%Z).
Proof.
  intros Hr Htimer.
  destruct (reachable_inv_timer _ _ _ _ _ Hr) as (_ & _ & Hw).
  assert (Hd : d = tellTimeout r0).
  { destruct (waiter s);
      [ congruence | destruct Hw; congruence
      | destruct Hw as [f Hw]; rewrite Hw in Htimer; by simplify_eq/= .. ]. }
  split; [done|]. intros kite auth h ->. by subst d.
Qed.

(** *** A rejected call *)

Lemma failed_frame s s' err :
  reachable s s' ->
  (sender s = S_failed err \/ sender s = S_returned (inr err)) ->
  waiter s = W_absent -> timer s = Unarmed ->
  removeCallback s = make 1 ->
  (sender s' = S_failed err \/ sender s' = S_returned (inr err))
  /\ waiter s' = W_absent /\ timer s' = Unarmed
  /\ removeCallback s' = make 1
  /\ removed s' = removed s /\ registry s' = registry s.
Proof.
  intros Hr Hs Hw Ht Hrc.
  induction Hr as [|s1 a s2 Hr IH Hstep]; [done|].
  destruct IH as (Hs1 & Hw1 & Ht1 & Hrc1 & Hrm1 & Hreg1).
  rewrite <- Hrm1, <- Hreg1. clear Hrm1 Hreg1 Hr Hs Hw Ht Hrc.
  destruct s1; unfold onDisconnect in *; simpl in *.
  destruct Hs1; subst; destruct a; step_cases Hstep; simpl in *; eauto 10.
Qed.

Lemma registry_before_call r0 h0 reg0 t0 s :
  reachable (init r0 h0 reg0 t0) s -> sender s = S_call -> registry s = reg0.
Proof.
  induction 1 as [|s a s' Hr IH Hstep]; [done|]. intros Hs'.
  pose proof (reachable_inv_remove _ _ _ _ _ Hr) as Hrm.
  unfold inv_remove in Hrm.
  destruct s; unfold onDisconnect in *; simpl in *.
  destruct a; step_cases Hstep; simpl in *; try done; auto.
  all: destruct Hrm as [-> _]; simpl in *; done.
Qed.

(** C8.  When the transport rejects the call, so that [r.client.Call]
    returns an error and leaves the callback map as it was, the next
    statement of [send] puts an error of type [sendError] on
    [responseChan] and [send] returns; from then on the goroutine of the
    race is never started, its timer is never armed, nothing is handed
    over on [removeCallback], no [RemoveCallback] is issued, and the
    callback map is the one the call was dispatched with. *)
Theorem send_error_is_immediate r0 h0 reg0 t0 s0 err seq nested top s :
  reachable (init r0 h0 reg0 t0) s0 ->
  step (ACall (Call (Some err) seq nested top (registry s0)).1
              (Call (Some err) seq nested top (registry s0)).2) s0 = Some s ->
  (exists s', step ASender s = Some s'
              /\ sender s' = S_returned (inr err)
              /\ outcomes s' = [mkResponse None (Some (mkError "sendError" err))])
  /\ (forall s', reachable s s' ->
        waiter s' = W_absent /\ timer s' = Unarmed
        /\ removeCallback s' = make 1 /\ removed s' = []
        /\ registry s' = reg0
        /\ (forall o, o ∈ outcomes s' -> o = sendError_response err)).
Proof.
  intros Hr0 Hcall.
  assert (Hr : reachable (init r0 h0 reg0 t0) s) by by eapply reachable_step.
  assert (Hs0 : sender s0 = S_call).
  { simpl in Hcall. by destruct (sender s0). }
  pose proof (registry_before_call _ _ _ _ _ Hr0 Hs0) as Hreg0.
  assert (Hs : sender s = S_failed err /\ registry s = reg0).
  { simpl in Hcall. rewrite Hs0 in Hcall. simplify_eq. by destruct s0. }
  destruct Hs as [Hs Hreg].
  pose proof (reachable_inv_outcome _ _ _ _ _ Hr) as (Hcap & Hcl & Hpc).
  pose proof (reachable_inv_timer _ _ _ _ _ Hr) as (_ & _ & Hw).
  pose proof (reachable_inv_remove _ _ _ _ _ Hr) as Hrm.
  unfold inv_remove in Hrm. rewrite Hs in *. destruct Hpc as [Hwa Hout].
  rewrite Hwa in Hw. destruct Hrm as [Hrc Hrem].
  split.
  - unfold outcomes in Hout. apply app_eq_nil in Hout as [Hobs Hbuf].
    unfold step, chan_send. rewrite Hs, Hcl, Hbuf, Hcap. simpl.
    eexists. split; [done|]. split; [done|].
    unfold outcomes. simpl. by rewrite ?Hobs, ?Hbuf.
  - intros s' Hr'.
    destruct (failed_frame s s' err Hr') as (Hs' & Hw' & Ht' & Hrc' & Hrm' & Hreg');
      auto.
    repeat split; try done; [congruence | congruence |].
    assert (Hr'' : reachable (init r0 h0 reg0 t0) s').
    { clear -Hr Hr'. induction Hr'; [done|]. by eapply reachable_step. }
    pose proof (reachable_inv_outcome _ _ _ _ _ Hr'') as (_ & _ & Hpc').
    intros o Ho. destruct Hs' as [Hs' | Hs']; rewrite Hs' in Hpc';
      destruct Hpc' as [_ Hout']; rewrite Hout' in Ho.
    + by apply elem_of_nil in Ho.
    + by apply list_elem_of_singleton in Ho.
Qed.

(** *** The identifier that is cleaned up *)

(** C2.  Once [send] has handed over an identifier for the continuations
    [Call] returned, that identifier is the numeric maximum of the
    identifiers in the map, in whatever order the [range] visits them; it is
    the only identifier the cleanup of this call ever removes, on timeout
    or on reply; and, identifiers being minted as the spec says (the
    continuations among the arguments first, the response continuation
    last, counting up), it is the identifier of the response
    continuation. *)
Theorem cleanup_identifier_is_maximum r0 h0 reg0 t0 s callbacks :
  reachable (init r0 h0 reg0 t0) s ->
  sender s = S_returned (inl callbacks) ->
  0 < size callbacks ->
  sendCallbackID callbacks (make 1)
    = Some (mkChan [find_max (keys_of callbacks)] 1 false)
  /\ (forall order, order ≡ₚ keys_of callbacks ->
        find_max order = find_max (keys_of callbacks))
  /\ (forall id, is_Some (callbacks !! id) ->
        (ParseUint id <= find_max (keys_of callbacks))%N)
  /\ (exists id, is_Some (callbacks !! id)
                 /\ ParseUint id = find_max (keys_of callbacks))
  /\ (forall id, id ∈ buf (removeCallback s) ++ removed s ->
        id = find_max (keys_of callbacks))
  /\ (forall seq nested top,
        callbacks = Call_callbacks seq nested top ->
        (seq + N.of_nat (length nested) <= maxUint64)%N ->
        find_max (keys_of callbacks) = top_id seq nested
        /\ callbacks !! FormatUint (top_id seq nested) = Some top).
Proof.
  intros Hr Hs Hsize.
  pose proof (reachable_inv_remove _ _ _ _ _ Hr) as Hrm.
  unfold inv_remove in Hrm. rewrite Hs in Hrm.
  assert (Hlt : (0 <? size callbacks)%nat = true) by by apply Nat.ltb_lt.
  rewrite Hlt in Hrm.
  split; [by rewrite sendCallbackID_fresh, Hlt|].
  split; [intros order Hp; by apply find_max_perm|].
  split; [intros id Hid; by apply find_max_ge, elem_of_keys_of|].
  split.
  { destruct (find_max_in (keys_of callbacks)) as (id & Hin & Heq);
      [by apply keys_of_nonempty|].
    exists id. split; [by apply elem_of_keys_of | done]. }
  split.
  { intros id Hid. destruct Hrm as [[Hc Hd] | [Hc Hd]];
      rewrite Hc, Hd in Hid; simpl in Hid;
      by apply list_elem_of_singleton in Hid. }
  intros seq nested top -> Hle. by apply Call_callbacks_max.
Qed.

(** *** An invalid reply *)

Lemma doneChan_shape r0 h0 reg0 t0 s :
  reachable (init r0 h0 reg0 t0) s ->
  cap (doneChan s) = 1 /\ closed (doneChan s) = false.
Proof.
  induction 1 as [|s a s' Hr [IH1 IH2] Hstep]; [done|].
  destruct s; unfold onDisconnect in *; simpl in *.
  destruct a; step_cases Hstep; simpl in *; try done.
Qed.

Lemma invalid_reply_response args :
  invalid_reply args ->
  exists result msg,
    responseCallback args
    = mkResponse result (Some (mkError "invalidResponse" msg)).
Proof.
  unfold invalid_reply, responseCallback, response_body.
  intros [Hslice | (arg0 & Hslice & Hbad)].
  - destruct (SliceOfLength args 1) as [a [e|]]; [|done]. by eexists _, _.
  - rewrite Hslice. destruct (Unmarshal_resp arg0) as [resp [e|]]; simpl in *.
    + by eexists _, _.
    + destruct Hbad as [? | [H1 H2]]; [done|].
      rewrite !bool_decide_eq_false_2 by done. simpl. by eexists _, _.
Qed.

(** C4.  When the reply the callback was invoked with is not exactly one
    argument, or its argument does not decode, or decodes with neither a
    [result] nor an [error] key, what the callback sends to [doneChan] is a
    response whose error has type [invalidResponse]; the send proceeds as
    soon as [doneChan] has room, and a call that is still waiting in its
    [select] can then take it and is resolved with that response. *)
Theorem invalid_reply_resolves_invalidResponse r0 h0 reg0 t0 s i args :
  reachable (init r0 h0 reg0 t0) s ->
  invocations s !! i = Some (C_decode args) ->
  invalid_reply args ->
  exists result msg,
    responseCallback args
    = mkResponse result (Some (mkError "invalidResponse" msg))
    /\ (buf (doneChan s) = [] ->
        exists s1, step (ACallbackFinish i) s = Some s1
          /\ buf (doneChan s1) = [responseCallback args]
          /\ (forall d, waiter s1 = W_select d ->
                exists s2 s3,
                  step AWaiterDone s1 = Some s2
                  /\ step AWaiterSend s2 = Some s3
                  /\ outcomes s3 = [responseCallback args])).
Proof.
  intros Hr Hi Hbad.
  destruct (invalid_reply_response _ Hbad) as (result & msg & Hresp).
  exists result, msg. split; [done|]. intros Hempty.
  destruct (doneChan_shape _ _ _ _ _ Hr) as [Hcap Hcl].
  destruct (step (ACallbackFinish i) s) as [s1|] eqn:Hstep; last first.
  { unfold step, chan_send in Hstep. by rewrite Hi, Hcl, Hempty, Hcap in Hstep. }
  exists s1. split; [done|].
  assert (Hr1 : reachable (init r0 h0 reg0 t0) s1) by by eapply reachable_step.
  pose proof (reachable_inv_outcome _ _ _ _ _ Hr1) as (Hcap1 & Hcl1 & Hpc1).
  assert (Hbuf1 : buf (doneChan s1) = [responseCallback args]).
  { unfold step, chan_send in Hstep. rewrite Hi, Hcl, Hempty, Hcap in Hstep.
    simpl in Hstep. by simplify_eq. }
  split; [done|]. intros d Hw.
  assert (Hout1 : outcomes s1 = []).
  { rewrite Hw in Hpc1. destruct (sender s1) as [| | | |[|]];
      by destruct Hpc1. }
  apply app_eq_nil in Hout1 as [Hobs1 Hrbuf1].
  unfold step at 1, chan_recv. rewrite Hw, Hbuf1. simpl.
  eexists _, _. split; [done|].
  unfold step, chan_send, outcomes. simpl. rewrite Hcl1, Hrbuf1, Hcap1. simpl.
  split; [done|]. simpl. by rewrite Hobs1.
Qed.

End DispatchFacts.

(** *** The dispatcher on concrete calls *)

Section DispatchExamples.

Import Wire Examples.

Lemma example_reachable acts t :
  runs acts t = true -> reachable (call_ex t) (state_after acts t).
Proof.
  unfold runs, state_after. intros Hruns. apply (run_reachable acts).
  by destruct (run acts (call_ex t)).
Qed.

Lemma exactly_one_outcome_witness :
  reachable (call_ex 0%Z) (state_after sched_timeout 0%Z)
  /\ outcomes (state_after sched_timeout 0%Z) = [timeout_response]
  /\ length (outcomes (state_after sched_timeout 0%Z)) <= 1
  /\ (dist (state_after sched_timeout 0%Z) = 0
      <-> length (outcomes (state_after sched_timeout 0%Z)) = 1).
Proof.
  assert (Hr : reachable (call_ex 0%Z) (state_after sched_timeout 0%Z)).
  { apply example_reachable. vm_compute. reflexivity. }
  split; [exact Hr|]. split; [vm_compute; reflexivity|].
  destruct (exactly_one_outcome r_ex h_ex ∅ 0%Z _ Hr) as (Hle & _ & _ & _ & _ & Hz).
  split; [exact Hle | exact Hz].
Defined.

(** The outcome of a call can be the error of a reply: here the
    [methodNotFound] a peer answers with, which is neither a success
    payload nor one of [sendError], [disconnect] and [timeout]. *)
Lemma outcome_can_be_reply_error :
  exists s o,
    reachable (call_ex 0%Z) s
    /\ outcomes s = [o]
    /\ Err o = Some (mkError "methodNotFound" "no such method")
    /\ ~ success_or_send_error o.
Proof.
  exists (state_after (sched_reply reply_methodNotFound) 0%Z).
  exists (mkResponse None (Some (mkError "methodNotFound" "no such method"))).
  split; [apply example_reachable; vm_compute; reflexivity|].
  split; [vm_compute; reflexivity|]. split; [done|].
  intros [Hnone | (e & He & Ht)]; simpl in *; [done|].
  simplify_eq. simpl in Ht. destruct Ht as [Ht | [Ht | Ht]]; discriminate.
Qed.

Lemma zero_timeout_arms_default_witness :
  reachable (call_ex 0%Z) (state_after sched_sent 0%Z)
  /\ timer (state_after sched_sent 0%Z) = Armed 4000000000%Z false
  /\ 4000000000%Z = tellTimeout r_ex.
Proof.
  assert (Hr : reachable (call_ex 0%Z) (state_after sched_sent 0%Z)).
  { apply example_reachable. vm_compute. reflexivity. }
  assert (Ht : timer (state_after sched_sent 0%Z) = Armed 4000000000%Z false).
  { vm_compute. reflexivity. }
  split; [exact Hr|]. split; [exact Ht|].
  exact (proj1 (zero_timeout_arms_default r_ex h_ex ∅ _ _ _ Hr Ht)).
Defined.

Lemma send_error_is_immediate_witness :
  reachable (call_ex 0%Z) (call_ex 0%Z)
  /\ step (ACall (Call (Some "not connected") 6 [] [] (registry (call_ex 0%Z))).1
                 (Call (Some "not connected") 6 [] [] (registry (call_ex 0%Z))).2)
       (call_ex 0%Z)
     = Some (state_after sched_rejected 0%Z)
  /\ exists s',
       step ASender (state_after sched_rejected 0%Z) = Some s'
       /\ sender s' = S_returned (inr "not connected")
       /\ outcomes s'
          = [mkResponse None (Some (mkError "sendError" "not connected"))].
Proof.
  assert (Hr : reachable (call_ex 0%Z) (call_ex 0%Z)) by apply reachable_init.
  assert (Hcall :
    step (ACall (Call (Some "not connected") 6 [] [] (registry (call_ex 0%Z))).1
                (Call (Some "not connected") 6 [] [] (registry (call_ex 0%Z))).2)
      (call_ex 0%Z)
    = Some (state_after sched_rejected 0%Z)).
  { vm_compute. reflexivity. }
  split; [exact Hr|]. split; [exact Hcall|].
  exact (proj1 (send_error_is_immediate r_ex h_ex ∅ 0%Z _ _ _ _ _ _ Hr Hcall)).
Defined.

Lemma cleanup_identifier_is_maximum_witness :
  reachable (call_ex 0%Z) (state_after sched_timeout 0%Z)
  /\ sender (state_after sched_timeout 0%Z) = S_returned (inl callbacks_ex)
  /\ 0 < size callbacks_ex
  /\ removed (state_after sched_timeout 0%Z) = [7%N]
  /\ find_max (keys_of callbacks_ex)
     = top_id 6 [["0"; "withArgs"; "1"]]
  /\ callbacks_ex !! FormatUint (top_id 6 [["0"; "withArgs"; "1"]])
     = Some ["0"; "responseCallback"].
Proof.
  assert (Hr : reachable (call_ex 0%Z) (state_after sched_timeout 0%Z)).
  { apply example_reachable. vm_compute. reflexivity. }
  assert (Hs : sender (state_after sched_timeout 0%Z)
               = S_returned (inl callbacks_ex)).
  { vm_compute. reflexivity. }
  assert (Hsize : 0 < size callbacks_ex).
  { vm_compute. lia. }
  split; [exact Hr|]. split; [exact Hs|]. split; [exact Hsize|].
  split; [vm_compute; reflexivity|].
  destruct (cleanup_identifier_is_maximum r_ex h_ex ∅ 0%Z _ _ Hr Hs Hsize)
    as (_ & _ & _ & _ & _ & Htop).
  apply (Htop 6%N [["0"; "withArgs"; "1"]] ["0"; "responseCallback"]).
  - reflexivity.
  - vm_compute. discriminate.
Defined.

Lemma invalid_reply_resolves_invalidResponse_witness :
  reachable (call_ex 0%Z) (state_after sched_invalid 0%Z)
  /\ invocations (state_after sched_invalid 0%Z) !! 0
     = Some (C_decode reply_empty)
  /\ invalid_reply reply_empty
  /\ exists result msg,
       responseCallback reply_empty
       = mkResponse result (Some (mkError "invalidResponse" msg)).
Proof.
  assert (Hr : reachable (call_ex 0%Z) (state_after sched_invalid 0%Z)).
  { apply example_reachable. vm_compute. reflexivity. }
  assert (Hi : invocations (state_after sched_invalid 0%Z) !! 0
               = Some (C_decode reply_empty)).
  { vm_compute. reflexivity. }
  assert (Hbad : invalid_reply reply_empty).
  { right. exists (VObj [("status", VStr "ok")]). split; [reflexivity|].
    right. split; apply (bool_decide_unpack _); vm_compute; exact I. }
  split; [exact Hr|]. split; [exact Hi|]. split; [exact Hbad|].
  destruct (invalid_reply_resolves_invalidResponse r_ex h_ex ∅ 0%Z _ _ _ Hr Hi Hbad)
    as (result & msg & Hresp & _).
  exists result, msg. exact Hresp.
Defined.

End DispatchExamples.

(** ** The unroutable-method handler *)

Section AdapterFacts.
Context `{Dnode}.
Variable Error_text : Adapter.dnode_error -> string.
Variable SentError : Type.
Variable errorForSending : Error -> SentError.

(** C5.  For an invocation of a method that has no handler: when the first
    argument decodes and holds a response continuation, [onError] invokes
    that continuation once, with a [nil] result and the error
    [methodNotFound] passed through [errorForSending]; when there is no
    argument, or the first one does not decode, or it holds no
    continuation, [onError] invokes nothing. *)
Theorem onError_replies_methodNotFound Method Args :
  (forall arg0 rest f,
     Args = arg0 :: rest ->
     Unmarshal_options arg0 = (Some f, None) ->
     Adapter.onError Error_text SentError errorForSending
       (Adapter.MethodNotFoundError Method Args)
     = [(f, Adapter.mkCallbackArg SentError None
              (errorForSending
                 (mkError "methodNotFound"
                    (Error_text (Adapter.MethodNotFoundError Method Args)))))])
  /\ (Args = [] ->
      Adapter.onError Error_text SentError errorForSending
        (Adapter.MethodNotFoundError Method Args) = [])
  /\ (forall arg0 rest cb e,
        Args = arg0 :: rest ->
        Unmarshal_options arg0 = (cb, Some e) ->
        Adapter.onError Error_text SentError errorForSending
          (Adapter.MethodNotFoundError Method Args) = [])
  /\ (forall arg0 rest,
        Args = arg0 :: rest ->
        Unmarshal_options arg0 = (None, None) ->
        Adapter.onError Error_text SentError errorForSending
          (Adapter.MethodNotFoundError Method Args) = []).
Proof.
  repeat split.
  - intros arg0 rest f -> Hdec. simpl. by rewrite Hdec.
  - by intros ->.
  - intros arg0 rest cb e -> Hdec. simpl. by rewrite Hdec.
  - intros arg0 rest -> Hdec. simpl. by rewrite Hdec.
Qed.

End AdapterFacts.

Section AdapterExamples.

Import Wire.

Lemma onError_replies_methodNotFound_witness :
  Unmarshal_options (VObj [("responseCallback", VFunc 3)]) = (Some 3%N, None)
  /\ Adapter.onError (fun _ => "method not found: add") Error (fun e => e)
       (Adapter.MethodNotFoundError "add"
          [VObj [("responseCallback", VFunc 3)]; VNum 2])
     = [(3%N, Adapter.mkCallbackArg Error None
                (mkError "methodNotFound" "method not found: add"))].
Proof.
  split; [reflexivity|].
  exact (proj1 (onError_replies_methodNotFound
                  (fun _ => "method not found: add") Error (fun e => e)
                  "add" [VObj [("responseCallback", VFunc 3)]; VNum 2])
           _ _ _ eq_refl eq_refl).
Defined.

End AdapterExamples.

(** ** The credential renewal loop *)

Section RenewalFacts.
Context `{Jwt}.
Variable trustedKontrolKeys : gmap string string.

Import Renewal.

Abbreviation renewToken := (Renewal.renewToken trustedKontrolKeys).
Abbreviation getRSAKey := (Renewal.getRSAKey trustedKontrolKeys).
Abbreviation step := (Renewal.step trustedKontrolKeys).

(** C9.  [renewToken] returns the error of the issuer, or the error
    "Cannot parse token", with the [RemoteKite] as it was; whenever it does
    not return [nil] the [RemoteKite], and with it [Authentication], is
    unchanged; [Key] and [validUntil] change only when it returns [nil],
    after the token has parsed, and then both are set, to the token string
    and to the expiry the token carries; [Type] never changes. *)
Theorem renewToken_failure_keeps_authentication answer r0 r' out :
  renewToken answer r0 = (r', out) ->
  (forall err, answer = inr err -> out = Returned (Some err) /\ r' = r0)
  /\ (forall tokenString err,
        answer = inl tokenString ->
        jwt_Parse tokenString getRSAKey = inr err ->
        out = Returned (Some "Cannot parse token") /\ r' = r0)
  /\ (out <> Returned None -> r' = r0)
  /\ (Auth r' <> Auth r0 ->
        out = Returned None
        /\ exists tokenString token f,
             answer = inl tokenString
             /\ jwt_Parse tokenString getRSAKey = inl token
             /\ Claims token !! "exp" = Some (ClaimNumber f)
             /\ Key (Auth r') = tokenString
             /\ validUntil (Auth r') = Some (Unix (int64_of_float64 f)))
  /\ AuthType (Auth r') = AuthType (Auth r0).
Proof.
  unfold Renewal.renewToken. intros Hrun.
  destruct answer as [tokenString | err0]; simplify_eq/=.
  - destruct (jwt_Parse tokenString getRSAKey) as [token | perr] eqn:Hparse.
    + destruct (Claims token !! "exp") as [[f | | | ] | ] eqn:Hexp;
        simplify_eq/=; split_and!; try done.
      all: try (intros ? ? [= <-] Hp; congruence).
      intros _. split; [done|]. by exists tokenString, token, f.
    + simplify_eq/=. split_and!; try done.
  - split_and!; try done. by intros ? [= <-].
Qed.

(** C10.  When the token the issuer returns parses but its claims hold no
    [exp], or hold one that is not a number, [renewToken] panics at the
    type assertion of line 222 instead of returning an error, leaving the
    [RemoteKite] as it was; the loop, which was in [renewToken] at line 189
    or 197, does not reach its retry branch: the goroutine is gone, and no
    step of the loop is enabled any more. *)
Theorem renewToken_panics_without_numeric_exp tokenString token r0 :
  jwt_Parse tokenString getRSAKey = inl token ->
  (forall f, Claims token !! "exp" <> Some (ClaimNumber f)) ->
  renewToken (inl tokenString) r0 = (r0, Panicked)
  /\ (forall err, renewToken (inl tokenString) r0 <> (r0, Returned err))
  /\ (forall s retry,
        renewer s = R_renew retry -> Renewal.r s = r0 ->
        exists s',
          step (ARenewed (inl tokenString)) s = Some s'
          /\ renewer s' = R_panic
          /\ renewer s' <> R_retry_top
          /\ events s' = events s
          /\ step AEnter s' = None
          /\ step ATimer s' = None
          /\ step ASignal s' = None
          /\ (forall answer, step (ARenewed answer) s' = None)).
Proof.
  intros Hparse Hexp.
  assert (Hpanic : renewToken (inl tokenString) r0 = (r0, Panicked)).
  { unfold Renewal.renewToken. rewrite Hparse.
    destruct (Claims token !! "exp") as [[f | | | ] | ] eqn:He; try done.
    by destruct (Hexp f). }
  split; [done|]. split; [by rewrite Hpanic|].
  intros s retry Hpc Hr. unfold Renewal.step at 1.
  rewrite Hpc, Hr, Hpanic. eexists. split; [done|].
  unfold Renewal.step. simpl. repeat split; done.
Qed.

(** A disconnect that happens while [renewToken] is running is missed: the
    handler has replaced [r.disconnect] by the time the loop enters its
    next [select], which therefore waits on a channel that is not closed. *)
Lemma disconnect_during_renewToken_is_missed s retry err :
  heap_ok (Renewal.r s, Renewal.heap s) ->
  renewer s = R_renew retry ->
  exists s1 s2 s3,
    step ADisconnect s = Some s1
    /\ step (ARenewed (inr err)) s1 = Some s2
    /\ step AEnter s2 = Some s3
    /\ is_closed (disconnect (Renewal.r s)) (Renewal.heap s3) = true
    /\ renewer s3 = R_retry_select (disconnect (Renewal.r s3))
                      (now s + retryInterval)%Z
    /\ is_closed (disconnect (Renewal.r s3)) (Renewal.heap s3) = false
    /\ step ASignal s3 = None.
Proof.
  intros Hok Hpc. destruct s as [r0 h0 t0 pc evs]. simpl in *. subst pc.
  pose proof (onDisconnect_heap_ok _ Hok) as (_ & _ & Hfresh).
  unfold Renewal.step, Renewal.renewToken, is_closed, onDisconnect in *.
  simpl in *.
  eexists _, _, _. split_and!; try done; simpl.
  - apply bool_decide_eq_true. set_solver.
  - by apply bool_decide_eq_false.
  - by rewrite bool_decide_eq_false_2.
Qed.

End RenewalFacts.

Section RenewalExamples.

Import Wire Examples Renewal.

Lemma renewToken_failure_keeps_authentication_witness :
  Renewal.renewToken ∅ (inl EmptyString) r_ex
  = (r_ex, Returned (Some "Cannot parse token"))
  /\ (Returned (Some "Cannot parse token") <> Returned None -> r_ex = r_ex)
  /\ AuthType (Auth r_ex) = AuthType (Auth r_ex).
Proof.
  assert (Hrun : Renewal.renewToken ∅ (inl EmptyString) r_ex
                 = (r_ex, Returned (Some "Cannot parse token"))).
  { reflexivity. }
  split; [exact Hrun|].
  destruct (renewToken_failure_keeps_authentication ∅ _ _ _ _ Hrun)
    as (_ & _ & Hsame & _ & Htype).
  split; [exact Hsame | exact Htype].
Defined.

Lemma renewToken_panics_without_numeric_exp_witness :
  jwt_Parse "sub=1" (Renewal.getRSAKey ∅)
  = inl (mkToken {[ "sub" := ClaimNumber 1%Z ]})
  /\ Renewal.renewToken ∅ (inl "sub=1") r_ex = (r_ex, Panicked).
Proof.
  assert (Hparse : jwt_Parse "sub=1" (Renewal.getRSAKey ∅)
                   = inl (mkToken {[ "sub" := ClaimNumber 1%Z ]})).
  { vm_compute. reflexivity. }
  split; [exact Hparse|].
  refine (proj1 (renewToken_panics_without_numeric_exp ∅ "sub=1" _ r_ex Hparse _)).
  intros f. vm_compute. discriminate.
Defined.

(** C3, on the schedule that breaks it.  The credential expires at 1000 s
    and the connection is made at 900 s: the loop waits until 970 s and
    calls [renewToken]; the connection drops while Kontrol is being asked,
    and Kontrol's answer is an error; the loop enters the [select] of its
    retry with the new [r.disconnect], cannot take the disconnect case, and
    10 s later calls [renewToken] again, after the disconnect. *)
Theorem renewal_attempt_after_disconnect :
  exists s,
    Renewal.run ∅ sched_missed (Renewal.init r_ex h_ex (Unix 900)) = Some s
    /\ events s = [EvAttempt (Unix 970); EvDisconnect (Unix 970);
                   EvAttempt (Unix 980)]
    /\ renewer s = R_renew true
    /\ ~ no_attempt_after_disconnect s.
Proof.
  eexists. split; [vm_compute; reflexivity|].
  split; [reflexivity|]. split; [reflexivity|].
  unfold no_attempt_after_disconnect. simpl. discriminate.
Qed.

End RenewalExamples.
